(** * Pipe intersection templates: a shallow embedding of [intersect.py]

    The program intersects the generator lines of one cylinder with a second
    cylinder and draws the unrolled cutting template.

    Numbers.  The program computes with Python floats.  They are modelled as
    real numbers ([R]): [==], [!=], [<] and [>] on floats become the decidable
    comparisons of [R], [math.sqrt], [math.cos], [math.sin] and [math.pi]
    become [sqrt], [cos], [sin] and [PI].  Rounding, overflow and NaN are
    outside this model.  Where underflow or overflow changes what the code
    does, the vector algebra and the constructor are given a second time
    over binary64 floats, in the module [binary64].

    Exceptions.  A Python exception is a value of [exn]; code that can raise
    returns a [result].  Division raises [ZeroDivisionError] on a zero
    divisor, [math.sqrt] raises [ValueError] below zero, indexing a list or a
    tuple out of range raises [IndexError].

    Output.  [gen_dxf] is modelled up to the list of line entities it adds
    to the drawing, in order; writing the file, the OpenSCAD text ([scad],
    [gen_scad], [r2d]) and the printing of the cylinders are left out. *)

From Stdlib Require Import PrimFloat.
From Stdlib Require Import Reals Lra Lia String List Bool Arith.
Import ListNotations.

Open Scope R_scope.

(** ** Python exceptions as an error monad *)

Inductive exn : Type :=
| ZeroDivisionError
| ValueError
| IndexError.

Inductive result (A : Type) : Type :=
| Ok (a : A)
| Raise (e : exn).

Arguments Ok {A} a.
Arguments Raise {A} e.

Definition bind {A B : Type} (m : result A) (k : A -> result B) : result B :=
  match m with
  | Ok a => k a
  | Raise e => Raise e
  end.

Notation "x <- m ;; k" := (bind m (fun x => k))
  (at level 61, m at next level, right associativity).

(** ** Float comparisons and the partial float operations *)

Definition Reqb (x y : R) : bool := if Req_dec_T x y then true else false.
Definition Rneqb (x y : R) : bool := negb (Reqb x y).
Definition Rltb (x y : R) : bool := if Rlt_dec x y then true else false.
Definition Rgtb (x y : R) : bool := if Rgt_dec x y then true else false.

Infix "==?" := Reqb (at level 70, no associativity) : R_scope.
Infix "!=?" := Rneqb (at level 70, no associativity) : R_scope.
Infix "<?" := Rltb (at level 70, no associativity) : R_scope.
Infix ">?" := Rgtb (at level 70, no associativity) : R_scope.

(** [x / y] on floats. *)
Definition fdiv (x y : R) : result R :=
  if y ==? 0 then Raise ZeroDivisionError else Ok (x / y).

(** [math.sqrt(x)]. *)
Definition msqrt (x : R) : result R :=
  if x <? 0 then Raise ValueError else Ok (sqrt x).

(** [xs[i]] on a list or tuple. *)
Definition index {A : Type} (xs : list A) (i : nat) : result A :=
  match nth_error xs i with
  | Some x => Ok x
  | None => Raise IndexError
  end.

(** ** Module constant *)

(** number of divisions around the cylinder circumference *)
Definition _NDIVS : nat := 32.

(** radians to degrees.  The divisor [math.pi] is a non-zero constant. *)
Definition r2d (r : R) : R := (180 * r) / PI.

(** ** Vector algebra *)

Definition vec : Type := R * R * R.

Definition vx (v : vec) : R := fst (fst v).
Definition vy (v : vec) : R := snd (fst v).
Definition vz (v : vec) : R := snd v.

Definition dot (u v : vec) : R :=
  (vx u * vx v) + (vy u * vy v) + (vz u * vz v).

Definition scale (v : vec) (k : R) : vec :=
  (vx v * k, vy v * k, vz v * k).

Definition normalize (v : vec) : result vec :=
  let l := sqrt (dot v v) in
  k <- fdiv 1 l ;;
  Ok (scale v k).

Definition cross (u v : vec) : vec :=
  ((vy u * vz v) - (vz u * vy v),
   (vz u * vx v) - (vx u * vz v),
   (vx u * vy v) - (vy u * vx v)).

(** return a normal to a vector *)
Definition gen_normal (v : vec) : vec :=
  if vx v ==? 0 then (1, 0, 0)
  else if vy v ==? 0 then (0, 1, 0)
  else if vz v ==? 0 then (0, 0, 1)
  else (0, vz v, - vy v).

(** ** Lines *)

Definition line : Type := vec * vec.

(** return the line position given the line and the t-parameter *)
Definition line_x (l : line) (t : R) : vec :=
  let '(u, v) := l in
  (vx u + (vx v * t), vy u + (vy v * t), vz u + (vz v * t)).

(** ** Quadratic solver *)

(** The solver returns a tuple: a tag followed by the roots. *)
Definition t_vals : Type := string * list R.

Definition AllReals : t_vals := ("inf"%string, []).
Definition NoSolution : t_vals := ("inv"%string, []).
Definition OneRoot (t : R) : t_vals := ("1"%string, [t]).
Definition NoRealRoots : t_vals := ("0"%string, []).
Definition TwoRoots (t1 t2 : R) : t_vals := ("2"%string, [t1; t2]).

(** the general form solution, from [d = (b * b) - 4.0 * a * c] on *)
Definition quadratic_general (a b c : R) : result t_vals :=
  let d := (b * b) - 4 * a * c in
  if d ==? 0 then
    t <- fdiv (- b) (2 * a) ;;
    Ok (OneRoot t)
  else if d <? 0 then
    Ok NoRealRoots
  else
    d' <- msqrt d ;;
    t1 <- fdiv (- b + d') (2 * a) ;;
    t2 <- fdiv (- b - d') (2 * a) ;;
    Ok (TwoRoots t1 t2).

(** return the real solutions of a quadratic *)
Definition quadratic (a b c : R) : result t_vals :=
  if a ==? 0 then
    if (b ==? 0) && (c ==? 0) then Ok AllReals
    else if (b ==? 0) && (c !=? 0) then Ok NoSolution
    else if (b !=? 0) && (c ==? 0) then Ok (OneRoot 0)
    else if (b !=? 0) && (c !=? 0) then
      t <- fdiv (- c) b ;;
      Ok (OneRoot t)
    else quadratic_general a b c
  else quadratic_general a b c.

(** ** Cylinder model *)

Module cylinder.

Record t : Type := mk {
  o : vec;          (* origin coordinates *)
  a : vec;          (* axis vector, normalized *)
  r : R;            (* radius *)
  l : R;            (* length *)
  color : string;
  n0 : vec;         (* 1st normal to cylinder axis *)
  n1 : vec          (* 2nd normal to cylinder axis *)
}.

Definition __init__ (o_ a_ : vec) (r_ l_ : R) (color_ : string) : result t :=
  self_a <- normalize a_ ;;
  self_n0 <- normalize (gen_normal self_a) ;;
  self_n1 <- normalize (cross self_a self_n0) ;;
  Ok (mk o_ self_a r_ l_ color_ self_n0 self_n1).

(** The body of the loop of [gen_lines] at index [i].  The divisor
    [_NDIVS] is the constant 32, so the division cannot raise. *)
Definition gen_line (self : t) (i : nat) : line :=
  let theta := 2 * PI * INR i / INR _NDIVS in
  let rc := r self * cos theta in
  let rs := r self * sin theta in
  let p := (vx (o self) + (rc * vx (n0 self)) + (rs * vx (n1 self)),
            vy (o self) + (rc * vy (n0 self)) + (rs * vy (n1 self)),
            vz (o self) + (rc * vz (n0 self)) + (rs * vz (n1 self))) in
  (p, a self).

(** Generate the cylinder surface lines used to intersect with the other
    cylinder: [lines = []], then one [lines.append] per index. *)
Definition gen_lines (self : t) : list line :=
  fold_left (fun lines i => lines ++ [gen_line self i]) (seq 0 _NDIVS) [].

(** Intersect a line with this cylinder.
    Return the line t values for the intersection points. *)
Definition intersect_line (self : t) (l_ : line) : result t_vals :=
  let '(u, v) := l_ in
  let vn := (dot v (n0 self), dot v (n1 self), dot v (a self)) in
  let a_ := (vx vn * vx vn) + (vy vn * vy vn) in
  let b_ := 2 * ((vx u * vx vn) + (vy u * vy vn)) in
  let c_ := (vx u * vx u) + (vy u * vy u) - (r self * r self) in
  quadratic a_ b_ c_.

End cylinder.

(** ** Template emission *)

Definition point2 : Type := R * R.

(** [dxf.line(start, end)] *)
Definition segment : Type := point2 * point2.

(** The drawing is the list of the entities added so far, oldest first. *)
Definition drawing : Type := list segment.

Definition add (d : drawing) (e : segment) : drawing := d ++ [e].

(** [for i in idxs: s = body(s, i)], stopping at the first exception. *)
Fixpoint for_each {St : Type} (body : St -> nat -> result St)
    (idxs : list nat) (s : St) : result St :=
  match idxs with
  | [] => Ok s
  | i :: rest => s' <- body s i ;; for_each body rest s'
  end.

(** The body of the loop of [gen_dxf] at index [i]. *)
Definition gen_dxf_body (c0 c1 : cylinder.t) (lines : list line) (base : R)
    (d : drawing) (i : nat) : result drawing :=
  let x := INR i * base / INR _NDIVS in
  li <- index lines i ;;
  tv <- cylinder.intersect_line c0 li ;;
  let tag := fst tv in
  if (tag =? "inf")%string then
    Ok d
  else if (tag =? "0")%string then
    Ok (add d ((x, 0), (x, cylinder.l c1)))
  else if (tag =? "1")%string then
    Ok (add d ((x, 0), (x, cylinder.l c1)))
  else if (tag =? "2")%string then
    tv1 <- index (snd tv) 0 ;;
    tv2 <- index (snd tv) 1 ;;
    let '(y0, y1) := if tv1 >? tv2 then (tv2, tv1) else (tv1, tv2) in
    Ok (add (add d ((x, 0), (x, y0))) ((x, y1), (x, cylinder.l c1)))
  else
    Ok d.

(** [gen_dxf(name, c0, c1)]: the entities handed to the drawing, in the
    order they are added.  Writing the file is left out. *)
Definition gen_dxf (c0 c1 : cylinder.t) : result drawing :=
  let lines := cylinder.gen_lines c1 in
  (* base line is the circumference of c1 *)
  let base := 2 * PI * cylinder.r c1 in
  let d := add [] ((0, 0), (base, 0)) in
  for_each (gen_dxf_body c0 c1 lines base) (seq 0 _NDIVS) d.

(** The two cylinders of [main]. *)
Definition main_c0 : result cylinder.t :=
  cylinder.__init__ (0, 0, -10) (0, 0, 1) (2875 / 1000 / 2) 20 "red".
Definition main_c1 : result cylinder.t :=
  cylinder.__init__ (0, 10, -10) (0, -1, 1) (2875 / 1000 / 2) 20 "blue".

(** ** Notions used in the statements *)

Definition vzero : vec := (0, 0, 0).

Definition vadd (u v : vec) : vec := (vx u + vx v, vy u + vy v, vz u + vz v).

Definition vsub (u v : vec) : vec := (vx u - vx v, vy u - vy v, vz u - vz v).

(** Euclidean length *)
Definition norm (v : vec) : R := sqrt (dot v v).

(** Perpendicular distance from the point [p] to the axis line of the
    cylinder: the length of the component of [p - origin] orthogonal to the
    axis. *)
Definition axis_distance (c : cylinder.t) (p : vec) : R :=
  let w := vsub p (cylinder.o c) in
  norm (vsub w (scale (cylinder.a c) (dot w (cylinder.a c)))).

(** The y values of the two end points of a segment. *)
Definition seg_ys (s : segment) : list R := [snd (fst s); snd (snd s)].

(** Both end points of the segment lie on the vertical line at [x]. *)
Definition vertical_at (x : R) (s : segment) : Prop :=
  fst (fst s) = x /\ fst (snd s) = x.

(** The template column of generator [i]: x_i = i * circumference / N. *)
Definition column_x (c1 : cylinder.t) (i : nat) : R :=
  INR i * (2 * PI * cylinder.r c1) / INR _NDIVS.

(** The base line of the template of [c1]. *)
Definition baseline (c1 : cylinder.t) : segment :=
  ((0, 0), (2 * PI * cylinder.r c1, 0)).

(** The segment spanning the whole column of generator [i]. *)
Definition full_column (c1 : cylinder.t) (i : nat) : segment :=
  ((column_x c1 i, 0), (column_x c1 i, cylinder.l c1)).

(** Both y values of the segment lie within the length of [c1]. *)
Definition within_length (c1 : cylinder.t) (s : segment) : Prop :=
  Forall (fun y => 0 <= y <= cylinder.l c1) (seg_ys s).

(** The cut policy of the loop body of [gen_dxf]: the segments added in the
    column of generator [i] for each result of the intersection. *)
Inductive column_of (c1 : cylinder.t) (i : nat) : t_vals -> list segment -> Prop :=
| column_inf : column_of c1 i AllReals []
| column_inv : column_of c1 i NoSolution []
| column_none : column_of c1 i NoRealRoots [full_column c1 i]
| column_one (t : R) : column_of c1 i (OneRoot t) [full_column c1 i]
| column_two (t1 t2 : R) :
    column_of c1 i (TwoRoots t1 t2)
      [((column_x c1 i, 0), (column_x c1 i, Rmin t1 t2));
       ((column_x c1 i, Rmax t1 t2), (column_x c1 i, cylinder.l c1))].

(** ** Example cylinders *)

(** A cylinder along the z axis, as [__init__] builds it: n0 is the x axis
    and n1 the y axis. *)
Definition along_z (o_ : vec) (r_ l_ : R) (color_ : string) : cylinder.t :=
  cylinder.mk o_ (0, 0, 1) r_ l_ color_ (1, 0, 0) (0, 1, 0).

(** A cylinder along the x axis, as [__init__] builds it: n0 is the y axis
    and n1 the z axis. *)
Definition along_x (o_ : vec) (r_ l_ : R) (color_ : string) : cylinder.t :=
  cylinder.mk o_ (1, 0, 0) r_ l_ color_ (0, 1, 0) (0, 0, 1).

(** A cylinder along the diagonal (0, -1, 1) of the y-z plane, the axis of
    the second cylinder of [main], as [__init__] builds it: n0 is the x
    axis and n1 the other diagonal of the y-z plane. *)
Definition along_diagonal (o_ : vec) (r_ l_ : R) (color_ : string) : cylinder.t :=
  cylinder.mk o_ (0, - / sqrt 2, / sqrt 2) r_ l_ color_
              (1, 0, 0) (0, / sqrt 2, / sqrt 2).

(** The cut policy in the words of the specification (section 4.4), to
    compare with the loop body of [gen_dxf]: AllReals leaves the generator
    unmarked, NoSolution, NoRealRoots and OneRoot draw the full length, and
    TwoRoots draws from 0 to the smaller root and from the greater root to
    the length. *)
Definition spec_cut_policy (c1 : cylinder.t) (i : nat) (tv : t_vals) : list segment :=
  let x := column_x c1 i in
  let tag := fst tv in
  if (tag =? "inf")%string then []
  else if ((tag =? "inv") || (tag =? "0") || (tag =? "1"))%string then
    [full_column c1 i]
  else if (tag =? "2")%string then
    match snd tv with
    | [t1; t2] => [((x, 0), (x, Rmin t1 t2)); ((x, Rmax t1 t2), (x, cylinder.l c1))]
    | _ => []
    end
  else [].

(** ** The vector algebra and the constructor over binary64 floats

    The same functions with the arithmetic of the machine: every operation
    rounds to the nearest binary64 number, [==] is the comparison of floats
    (0.0 equals -0.0, NaN equals nothing) and a division by a float equal to
    zero raises [ZeroDivisionError]. *)

Module binary64.

Definition vec : Type := float * float * float.

Definition vzero : vec := (0%float, 0%float, 0%float).

Definition fdiv (x y : float) : result float :=
  if PrimFloat.eqb y 0%float then Raise ZeroDivisionError
  else Ok (PrimFloat.div x y).

Definition msqrt (x : float) : result float :=
  if PrimFloat.ltb x 0%float then Raise ValueError else Ok (PrimFloat.sqrt x).

Definition dot (u v : vec) : float :=
  let '(u0, u1, u2) := u in
  let '(v0, v1, v2) := v in
  PrimFloat.add (PrimFloat.add (PrimFloat.mul u0 v0) (PrimFloat.mul u1 v1))
                (PrimFloat.mul u2 v2).

Definition scale (v : vec) (k : float) : vec :=
  let '(v0, v1, v2) := v in
  (PrimFloat.mul v0 k, PrimFloat.mul v1 k, PrimFloat.mul v2 k).

Definition normalize (v : vec) : result vec :=
  l <- msqrt (dot v v) ;;
  k <- fdiv 1%float l ;;
  Ok (scale v k).

Definition cross (u v : vec) : vec :=
  let '(u0, u1, u2) := u in
  let '(v0, v1, v2) := v in
  (PrimFloat.sub (PrimFloat.mul u1 v2) (PrimFloat.mul u2 v1),
   PrimFloat.sub (PrimFloat.mul u2 v0) (PrimFloat.mul u0 v2),
   PrimFloat.sub (PrimFloat.mul u0 v1) (PrimFloat.mul u1 v0)).

Definition gen_normal (v : vec) : vec :=
  let '(v0, v1, v2) := v in
  if PrimFloat.eqb v0 0%float then (1%float, 0%float, 0%float)
  else if PrimFloat.eqb v1 0%float then (0%float, 1%float, 0%float)
  else if PrimFloat.eqb v2 0%float then (0%float, 0%float, 1%float)
  else (0%float, v2, PrimFloat.opp v1).

Record t : Type := mk {
  o : vec;
  a : vec;
  r : float;
  l : float;
  color : string;
  n0 : vec;
  n1 : vec
}.

Definition __init__ (o_ a_ : vec) (r_ l_ : float) (color_ : string) : result t :=
  self_a <- normalize a_ ;;
  self_n0 <- normalize (gen_normal self_a) ;;
  self_n1 <- normalize (cross self_a self_n0) ;;
  Ok (mk o_ self_a r_ l_ color_ self_n0 self_n1).

End binary64.

(** * Properties *)

(** ** Comparisons *)

Lemma Reqb_true (x y : R) : x = y -> (x ==? y) = true.
Proof. intros H. unfold Reqb. destruct (Req_dec_T x y); [reflexivity | contradiction]. Qed.

Lemma Reqb_false (x y : R) : x <> y -> (x ==? y) = false.
Proof. intros H. unfold Reqb. destruct (Req_dec_T x y); [contradiction | reflexivity]. Qed.

Lemma Rneqb_true (x y : R) : x <> y -> (x !=? y) = true.
Proof. intros H. unfold Rneqb. now rewrite Reqb_false. Qed.

Lemma Rneqb_false (x y : R) : x = y -> (x !=? y) = false.
Proof. intros H. unfold Rneqb. now rewrite Reqb_true. Qed.

Lemma Rltb_true (x y : R) : x < y -> (x <? y) = true.
Proof. intros H. unfold Rltb. destruct (Rlt_dec x y); [reflexivity | contradiction]. Qed.

Lemma Rltb_false (x y : R) : y <= x -> (x <? y) = false.
Proof. intros H. unfold Rltb. destruct (Rlt_dec x y); [lra | reflexivity]. Qed.

Lemma Rgtb_true (x y : R) : x > y -> (x >? y) = true.
Proof. intros H. unfold Rgtb. destruct (Rgt_dec x y); [reflexivity | contradiction]. Qed.

Lemma Rgtb_false (x y : R) : x <= y -> (x >? y) = false.
Proof. intros H. unfold Rgtb. destruct (Rgt_dec x y); [lra | reflexivity]. Qed.

Lemma fdiv_ok (x y : R) : y <> 0 -> fdiv x y = Ok (x / y).
Proof. intros H. unfold fdiv. now rewrite Reqb_false. Qed.

Lemma fdiv_zero (x : R) : fdiv x 0 = Raise ZeroDivisionError.
Proof. unfold fdiv. now rewrite Reqb_true. Qed.

Lemma msqrt_ok (x : R) : 0 <= x -> msqrt x = Ok (sqrt x).
Proof. intros H. unfold msqrt. now rewrite Rltb_false. Qed.

(** ** The quadratic solver, branch by branch *)

Section Quadratic.

Variables a b c : R.

Let d : R := (b * b) - 4 * a * c.

Lemma quadratic_inf : a = 0 -> b = 0 -> c = 0 -> quadratic a b c = Ok AllReals.
Proof.
  intros Ha Hb Hc. unfold quadratic.
  rewrite (Reqb_true a), (Reqb_true b), (Reqb_true c) by assumption.
  reflexivity.
Qed.

Lemma quadratic_inv : a = 0 -> b = 0 -> c <> 0 -> quadratic a b c = Ok NoSolution.
Proof.
  intros Ha Hb Hc. unfold quadratic, Rneqb.
  rewrite (Reqb_true a), (Reqb_true b), (Reqb_false c) by assumption.
  reflexivity.
Qed.

Lemma quadratic_linear_zero :
  a = 0 -> b <> 0 -> c = 0 -> quadratic a b c = Ok (OneRoot 0).
Proof.
  intros Ha Hb Hc. unfold quadratic, Rneqb.
  rewrite (Reqb_true a), (Reqb_false b), (Reqb_true c) by assumption.
  reflexivity.
Qed.

Lemma quadratic_linear :
  a = 0 -> b <> 0 -> c <> 0 -> quadratic a b c = Ok (OneRoot (- c / b)).
Proof.
  intros Ha Hb Hc. unfold quadratic, Rneqb.
  rewrite (Reqb_true a), (Reqb_false b), (Reqb_false c) by assumption.
  cbn. now rewrite fdiv_ok.
Qed.

Lemma quadratic_double :
  a <> 0 -> d = 0 -> quadratic a b c = Ok (OneRoot (- b / (2 * a))).
Proof.
  intros Ha Hd. unfold quadratic, quadratic_general.
  rewrite (Reqb_false a) by assumption.
  fold d. rewrite (Reqb_true d) by assumption.
  rewrite fdiv_ok by lra. reflexivity.
Qed.

Lemma quadratic_none : a <> 0 -> d < 0 -> quadratic a b c = Ok NoRealRoots.
Proof.
  intros Ha Hd. unfold quadratic, quadratic_general.
  rewrite (Reqb_false a) by assumption.
  fold d. rewrite (Reqb_false d), (Rltb_true d) by lra.
  reflexivity.
Qed.

Lemma quadratic_two :
  a <> 0 -> d > 0 ->
  quadratic a b c =
  Ok (TwoRoots ((- b + sqrt d) / (2 * a)) ((- b - sqrt d) / (2 * a))).
Proof.
  intros Ha Hd. unfold quadratic, quadratic_general.
  rewrite (Reqb_false a) by assumption.
  fold d. rewrite (Reqb_false d), (Rltb_false d) by lra.
  rewrite msqrt_ok by lra. cbn.
  rewrite !fdiv_ok by lra. reflexivity.
Qed.

(** Either root of the general form solves the equation. *)
Lemma general_root (s : R) :
  a <> 0 -> s * s = d ->
  let t := (- b + s) / (2 * a) in
  a * (t * t) + b * t + c = 0.
Proof.
  intros Ha Hs t.
  replace (a * (t * t) + b * t + c) with ((s * s - d) / (4 * a)).
  - rewrite Hs. field. assumption.
  - unfold t, d. field. assumption.
Qed.

End Quadratic.

(** The seven branches cover all coefficients. *)
Lemma quadratic_cases (a b c : R) :
  let d := (b * b) - 4 * a * c in
  (a = 0 /\ b = 0 /\ c = 0 /\ quadratic a b c = Ok AllReals) \/
  (a = 0 /\ b = 0 /\ c <> 0 /\ quadratic a b c = Ok NoSolution) \/
  (a = 0 /\ b <> 0 /\ c = 0 /\ quadratic a b c = Ok (OneRoot 0)) \/
  (a = 0 /\ b <> 0 /\ c <> 0 /\ quadratic a b c = Ok (OneRoot (- c / b))) \/
  (a <> 0 /\ d = 0 /\ quadratic a b c = Ok (OneRoot (- b / (2 * a)))) \/
  (a <> 0 /\ d < 0 /\ quadratic a b c = Ok NoRealRoots) \/
  (a <> 0 /\ d > 0 /\
   quadratic a b c =
   Ok (TwoRoots ((- b + sqrt d) / (2 * a)) ((- b - sqrt d) / (2 * a)))).
Proof.
  intros d.
  destruct (Req_dec_T a 0) as [Ha | Ha].
  - destruct (Req_dec_T b 0) as [Hb | Hb]; destruct (Req_dec_T c 0) as [Hc | Hc].
    + left. auto using quadratic_inf.
    + right; left. auto using quadratic_inv.
    + right; right; left. auto using quadratic_linear_zero.
    + right; right; right; left. auto using quadratic_linear.
  - destruct (Rtotal_order d 0) as [Hd | [Hd | Hd]].
    + do 5 right; left. auto using quadratic_none.
    + do 4 right; left. auto using quadratic_double.
    + do 6 right. auto using quadratic_two.
Qed.

(** Every root the solver returns solves the equation. *)
Lemma quadratic_roots_solve (a b c : R) (tag : string) (roots : list R) (t : R) :
  quadratic a b c = Ok (tag, roots) -> In t roots ->
  a * (t * t) + b * t + c = 0.
Proof.
  intros Hq Hin.
  destruct (quadratic_cases a b c) as
    [(Ha & Hb & Hc & E) | [(Ha & Hb & Hc & E) | [(Ha & Hb & Hc & E) |
    [(Ha & Hb & Hc & E) | [(Ha & Hd & E) | [(Ha & Hd & E) | (Ha & Hd & E)]]]]]];
    rewrite E in Hq; inversion Hq; subst tag roots; cbn in Hin.
  - contradiction.
  - contradiction.
  - destruct Hin as [<- | []]. subst a c. ring.
  - destruct Hin as [<- | []]. subst a. field. assumption.
  - destruct Hin as [<- | []].
    replace (- b / (2 * a)) with ((- b + 0) / (2 * a)) by (field; assumption).
    apply general_root; [ assumption | lra ].
  - contradiction.
  - assert (Hs : sqrt (b * b - 4 * a * c) * sqrt (b * b - 4 * a * c) =
                 b * b - 4 * a * c) by (apply sqrt_sqrt; lra).
    destruct Hin as [<- | [<- | []]].
    + apply general_root; assumption.
    + replace (- b - sqrt (b * b - 4 * a * c))
        with (- b + - sqrt (b * b - 4 * a * c)) by ring.
      apply general_root; [ assumption | lra ].
Qed.

(** Closes one conjunct of the classification once the solver's result in
    the case at hand has been substituted. *)
Ltac quadratic_case :=
  repeat match goal with
         | |- _ <-> _ => split
         | |- _ -> _ => intro
         | H : _ /\ _ |- _ => destruct H
         | H : _ \/ _ |- _ => destruct H
         | H : exists _, _ |- _ => destruct H
         | H : Ok _ = Ok _ |- _ => inversion H; clear H
         end;
  first [ reflexivity
        | assumption
        | contradiction
        | lra
        | exfalso; lra
        | eexists; reflexivity
        | do 2 eexists; reflexivity
        | left; split; assumption
        | right; split; assumption
        | repeat split; assumption ].

(** C4.  For all real coefficients, [quadratic] classifies exactly as
    specified: AllReals iff a = b = c = 0; NoSolution iff a = 0, b = 0 and
    c <> 0; OneRoot iff (a = 0 and b <> 0), with root 0 when c = 0 and -c/b
    otherwise, or (a <> 0 and d = 0), with root -b/(2a); NoRealRoots iff
    a <> 0 and d < 0; TwoRoots iff a <> 0 and d > 0, with the roots
    (-b + sqrt d)/(2a) and (-b - sqrt d)/(2a); the solver never raises, and
    every returned root t satisfies a t^2 + b t + c = 0. *)
Theorem quadratic_classification (a b c : R) :
  let d := (b * b) - 4 * a * c in
  (quadratic a b c = Ok AllReals <-> a = 0 /\ b = 0 /\ c = 0) /\
  (quadratic a b c = Ok NoSolution <-> a = 0 /\ b = 0 /\ c <> 0) /\
  ((exists t, quadratic a b c = Ok (OneRoot t)) <->
   (a = 0 /\ b <> 0) \/ (a <> 0 /\ d = 0)) /\
  (a = 0 /\ b <> 0 /\ c = 0 -> quadratic a b c = Ok (OneRoot 0)) /\
  (a = 0 /\ b <> 0 /\ c <> 0 -> quadratic a b c = Ok (OneRoot (- c / b))) /\
  (a <> 0 /\ d = 0 -> quadratic a b c = Ok (OneRoot (- b / (2 * a)))) /\
  (quadratic a b c = Ok NoRealRoots <-> a <> 0 /\ d < 0) /\
  ((exists t1 t2, quadratic a b c = Ok (TwoRoots t1 t2)) <-> a <> 0 /\ d > 0) /\
  (a <> 0 /\ d > 0 ->
   quadratic a b c =
   Ok (TwoRoots ((- b + sqrt d) / (2 * a)) ((- b - sqrt d) / (2 * a)))) /\
  (exists tv, quadratic a b c = Ok tv) /\
  (forall tag roots t,
     quadratic a b c = Ok (tag, roots) -> In t roots ->
     a * (t * t) + b * t + c = 0).
Proof.
  intros d.
  pose proof (quadratic_cases a b c) as Hcases. cbv zeta in Hcases.
  fold d in Hcases.
  destruct Hcases as
    [(Ha & Hb & Hc & E) | [(Ha & Hb & Hc & E) | [(Ha & Hb & Hc & E) |
    [(Ha & Hb & Hc & E) | [(Ha & Hd & E) | [(Ha & Hd & E) | (Ha & Hd & E)]]]]]];
    repeat match goal with |- _ /\ _ => split end;
    try exact (quadratic_roots_solve a b c); try (eexists; exact E);
    rewrite E; unfold AllReals, NoSolution, OneRoot, NoRealRoots, TwoRoots;
    quadratic_case.
Qed.

(** ** Vector algebra *)

Lemma dot_gen_normal (v : vec) : dot v (gen_normal v) = 0.
Proof.
  destruct v as [[x y] z]. unfold gen_normal, dot, vx, vy, vz, Reqb.
  cbn [fst snd].
  destruct (Req_dec_T x 0); [ cbn [fst snd]; lra | ].
  destruct (Req_dec_T y 0); [ cbn [fst snd]; lra | ].
  destruct (Req_dec_T z 0); cbn [fst snd]; lra.
Qed.

(** C9.  For every vector [v], [gen_normal v] is orthogonal to [v] (the dot
    product is exactly zero) and is chosen by the rule: (1,0,0) if v.x = 0;
    else (0,1,0) if v.y = 0; else (0,0,1) if v.z = 0 (x before y before z
    when several coordinates are zero); otherwise (0, v.z, -v.y). *)
Theorem gen_normal_orthogonal (v : vec) :
  dot v (gen_normal v) = 0 /\
  (vx v = 0 -> gen_normal v = (1, 0, 0)) /\
  (vx v <> 0 /\ vy v = 0 -> gen_normal v = (0, 1, 0)) /\
  (vx v <> 0 /\ vy v <> 0 /\ vz v = 0 -> gen_normal v = (0, 0, 1)) /\
  (vx v <> 0 /\ vy v <> 0 /\ vz v <> 0 -> gen_normal v = (0, vz v, - vy v)).
Proof.
  destruct v as [[x y] z]. unfold gen_normal, dot, vx, vy, vz. cbn [fst snd].
  destruct (Req_dec_T x 0) as [Hx | Hx];
    [ rewrite (Reqb_true x) by assumption
    | rewrite (Reqb_false x) by assumption;
      destruct (Req_dec_T y 0) as [Hy | Hy];
      [ rewrite (Reqb_true y) by assumption
      | rewrite (Reqb_false y) by assumption;
        destruct (Req_dec_T z 0) as [Hz | Hz];
        [ rewrite (Reqb_true z) by assumption
        | rewrite (Reqb_false z) by assumption ] ] ];
    cbn [fst snd];
    (split; [ lra | ]);
    repeat split; intros; try reflexivity; exfalso; tauto.
Qed.

Lemma dot_self_nonneg (v : vec) : 0 <= dot v v.
Proof. destruct v as [[x y] z]. unfold dot, vx, vy, vz. cbn [fst snd]. nra. Qed.

Lemma dot_self_zero (v : vec) : dot v v = 0 -> v = vzero.
Proof.
  destruct v as [[x y] z]. unfold dot, vx, vy, vz, vzero. cbn [fst snd].
  intros H.
  assert (x = 0) by nra. assert (y = 0) by nra. assert (z = 0) by nra.
  congruence.
Qed.

Lemma dot_self_pos (v : vec) : v <> vzero -> 0 < dot v v.
Proof.
  intros Hv. destruct (dot_self_nonneg v) as [H | H]; [assumption | ].
  exfalso. apply Hv, dot_self_zero. symmetry. exact H.
Qed.

Lemma norm_pos (v : vec) : v <> vzero -> 0 < norm v.
Proof. intros Hv. apply sqrt_lt_R0, dot_self_pos, Hv. Qed.

Lemma norm_sqr (v : vec) : norm v * norm v = dot v v.
Proof. apply sqrt_sqrt, dot_self_nonneg. Qed.

Lemma norm_unit (v : vec) : dot v v = 1 -> norm v = 1.
Proof. intros H. unfold norm. rewrite H. apply sqrt_1. Qed.

Lemma unit_nonzero (v : vec) : dot v v = 1 -> v <> vzero.
Proof.
  intros H E. subst v. unfold dot, vzero, vx, vy, vz in H. cbn [fst snd] in H. lra.
Qed.

Lemma dot_scale (v : vec) (k : R) : dot (scale v k) (scale v k) = k * k * dot v v.
Proof. destruct v as [[x y] z]. unfold dot, scale, vx, vy, vz. cbn [fst snd]. ring. Qed.

Lemma dot_scale_r (u v : vec) (k : R) : dot u (scale v k) = k * dot u v.
Proof.
  destruct u as [[x y] z], v as [[x' y'] z'].
  unfold dot, scale, vx, vy, vz. cbn [fst snd]. ring.
Qed.

Lemma scale_one (v : vec) : scale v (1 / 1) = v.
Proof.
  destruct v as [[x y] z]. unfold scale, vx, vy, vz. cbn [fst snd].
  repeat f_equal; field.
Qed.

(** [normalize] divides by the length and succeeds away from the zero
    vector; on the zero vector the division raises. *)
Lemma normalize_ok (v : vec) :
  v <> vzero -> normalize v = Ok (scale v (1 / norm v)).
Proof.
  intros Hv. unfold normalize. fold (norm v).
  rewrite fdiv_ok; [reflexivity | ].
  pose proof (norm_pos v Hv). lra.
Qed.

Lemma normalize_zero : normalize vzero = Raise ZeroDivisionError.
Proof.
  unfold normalize.
  replace (dot vzero vzero) with 0
    by (unfold dot, vzero, vx, vy, vz; cbn [fst snd]; ring).
  rewrite sqrt_0, fdiv_zero. reflexivity.
Qed.

Lemma normalized_unit (v : vec) :
  v <> vzero -> dot (scale v (1 / norm v)) (scale v (1 / norm v)) = 1.
Proof.
  intros Hv. rewrite dot_scale, <- norm_sqr.
  pose proof (norm_pos v Hv). field. lra.
Qed.

Lemma gen_normal_nonzero (v : vec) : gen_normal v <> vzero.
Proof.
  destruct v as [[x y] z]. unfold gen_normal, vzero, vx, vy, vz. cbn [fst snd].
  unfold Reqb.
  destruct (Req_dec_T x 0); [ intros E; inversion E; lra | ].
  destruct (Req_dec_T y 0); [ intros E; inversion E; lra | ].
  destruct (Req_dec_T z 0); [ intros E; inversion E; lra | ].
  intros E; inversion E; lra.
Qed.

Lemma dot_cross_l (u v : vec) : dot u (cross u v) = 0.
Proof.
  destruct u as [[x y] z], v as [[x' y'] z'].
  unfold dot, cross, vx, vy, vz. cbn [fst snd]. ring.
Qed.

Lemma dot_cross_r (u v : vec) : dot v (cross u v) = 0.
Proof.
  destruct u as [[x y] z], v as [[x' y'] z'].
  unfold dot, cross, vx, vy, vz. cbn [fst snd]. ring.
Qed.

(** Lagrange's identity *)
Lemma dot_cross_cross (u v : vec) :
  dot (cross u v) (cross u v) = dot u u * dot v v - dot u v * dot u v.
Proof.
  destruct u as [[x y] z], v as [[x' y'] z'].
  unfold dot, cross, vx, vy, vz. cbn [fst snd]. ring.
Qed.

(** ** Cylinder construction *)

(** What [__init__] computes for a non-zero axis, step by step. *)
Lemma init_steps (o a : vec) (r l : R) (color : string) :
  a <> vzero ->
  let a' := scale a (1 / norm a) in
  let g := gen_normal a' in
  let n0' := scale g (1 / norm g) in
  let n1' := cross a' n0' in
  dot a' a' = 1 /\ dot n0' n0' = 1 /\ dot n1' n1' = 1 /\
  dot a' n0' = 0 /\
  normalize a = Ok a' /\
  normalize g = Ok n0' /\
  normalize n1' = Ok n1' /\
  cylinder.__init__ o a r l color = Ok (cylinder.mk o a' r l color n0' n1').
Proof.
  intros Ha a' g n0' n1'.
  assert (Hg : g <> vzero) by apply gen_normal_nonzero.
  assert (Ua : dot a' a' = 1) by (apply normalized_unit, Ha).
  assert (U0 : dot n0' n0' = 1) by (apply normalized_unit, Hg).
  assert (O0 : dot a' n0' = 0).
  { unfold n0'. rewrite dot_scale_r.
    pose proof (dot_gen_normal a') as Hog. fold g in Hog.
    rewrite Hog. ring. }
  assert (U1 : dot n1' n1' = 1).
  { unfold n1'. rewrite dot_cross_cross, Ua, U0, O0. ring. }
  assert (Na : normalize a = Ok a') by (apply normalize_ok, Ha).
  assert (N0 : normalize g = Ok n0') by (apply normalize_ok, Hg).
  assert (N1 : normalize n1' = Ok n1').
  { rewrite normalize_ok by (apply unit_nonzero, U1).
    rewrite (norm_unit _ U1), scale_one. reflexivity. }
  repeat split; try assumption.
  unfold cylinder.__init__. rewrite Na. cbn [bind].
  fold g. rewrite N0. cbn [bind]. fold n1'. rewrite N1. reflexivity.
Qed.

Lemma float_one_neq_zero : 1%float <> 0%float.
Proof.
  intros E.
  assert (H : PrimFloat.eqb 1%float 0%float = PrimFloat.eqb 0%float 0%float)
    by (rewrite E; reflexivity).
  vm_compute in H. discriminate.
Qed.

(** Over floats too, [gen_normal] never returns the zero vector. *)
Lemma binary64_gen_normal_nonzero (v : binary64.vec) :
  binary64.gen_normal v <> binary64.vzero.
Proof.
  destruct v as [[x y] z]. unfold binary64.gen_normal, binary64.vzero.
  destruct (PrimFloat.eqb x 0%float).
  { intros E. apply (f_equal (fun p => fst (fst p))) in E. cbn [fst snd] in E.
    exact (float_one_neq_zero E). }
  destruct (PrimFloat.eqb y 0%float).
  { intros E. apply (f_equal (fun p => snd (fst p))) in E. cbn [fst snd] in E.
    exact (float_one_neq_zero E). }
  destruct (PrimFloat.eqb z 0%float) eqn:Hz.
  { intros E. apply (f_equal (fun p => snd p)) in E. cbn [fst snd] in E.
    exact (float_one_neq_zero E). }
  intros E. apply (f_equal (fun p => snd (fst p))) in E. cbn [fst snd] in E.
  rewrite E in Hz. vm_compute in Hz. discriminate.
Qed.

(** Over floats, [normalize] divides by zero exactly when the length it
    has computed is zero. *)
Lemma binary64_normalize_raises (v : binary64.vec) :
  binary64.normalize v = Raise ZeroDivisionError <->
  PrimFloat.ltb (binary64.dot v v) 0%float = false /\
  PrimFloat.eqb (PrimFloat.sqrt (binary64.dot v v)) 0%float = true.
Proof.
  unfold binary64.normalize, binary64.msqrt.
  destruct (PrimFloat.ltb (binary64.dot v v) 0%float); cbn [bind].
  - split; [ discriminate | intros [H _]; discriminate ].
  - unfold binary64.fdiv.
    destruct (PrimFloat.eqb (PrimFloat.sqrt (binary64.dot v v)) 0%float); cbn [bind].
    + split; [ intros _; split; reflexivity | reflexivity ].
    + split; [ discriminate | intros [_ H]; discriminate ].
Qed.

(** C10, as the code has it.  [gen_normal] returns a non-zero vector for
    every input, the zero vector included, in exact arithmetic and over
    binary64 floats.  [normalize] divides by zero exactly when the length it
    computes is zero.  In exact arithmetic that is the zero vector only, so
    for every non-zero axis input the three lengths divided by, of the axis,
    of [gen_normal] of the unit axis and of the cross product, are strictly
    positive, each [normalize] returns, and [__init__] returns the cylinder
    without raising.  Over binary64 floats the computed length is zero as
    soon as the squared length underflows: there a non-zero axis is not
    enough, the computed length itself has to differ from 0.0. *)
Theorem init_no_zero_division (o a : vec) (r l : R) (color : string) :
  a <> vzero ->
  (forall v, gen_normal v <> vzero) /\
  (forall v, binary64.gen_normal v <> binary64.vzero) /\
  (forall v, normalize v = Raise ZeroDivisionError <-> v = vzero) /\
  (forall v,
     binary64.normalize v = Raise ZeroDivisionError <->
     PrimFloat.ltb (binary64.dot v v) 0%float = false /\
     PrimFloat.eqb (PrimFloat.sqrt (binary64.dot v v)) 0%float = true) /\
  exists a' n0' n1',
    0 < norm a /\ normalize a = Ok a' /\
    0 < norm (gen_normal a') /\ normalize (gen_normal a') = Ok n0' /\
    0 < norm (cross a' n0') /\ normalize (cross a' n0') = Ok n1' /\
    cylinder.__init__ o a r l color = Ok (cylinder.mk o a' r l color n0' n1').
Proof.
  intros Ha. split; [ exact gen_normal_nonzero | ].
  split; [ exact binary64_gen_normal_nonzero | ]. split; [ | split ].
  - intros v. split.
    + intros H. destruct (dot_self_nonneg v) as [Hp | Hz].
      * assert (Hv : v <> vzero).
        { intros E. subst v. unfold dot, vzero, vx, vy, vz in Hp.
          cbn [fst snd] in Hp. lra. }
        rewrite (normalize_ok v Hv) in H. discriminate.
      * apply dot_self_zero. symmetry. exact Hz.
    + intros ->. apply normalize_zero.
  - exact binary64_normalize_raises.
  - destruct (init_steps o a r l color Ha)
      as (Ua & U0 & U1 & O0 & Na & N0 & N1 & Hinit).
    eexists _, _, _.
    repeat split; try eassumption.
    + apply norm_pos, Ha.
    + apply norm_pos, gen_normal_nonzero.
    + apply norm_pos, unit_nonzero, U1.
Qed.

Lemma init_no_zero_division_witness :
  (0, 0, 1) <> vzero /\
  exists c, cylinder.__init__ (0, 0, -10) (0, 0, 1) (2875 / 1000 / 2) 20 "red" = Ok c.
Proof.
  assert (H : (0, 0, 1) <> vzero) by (intros E; inversion E; lra).
  split; [ exact H | ].
  destruct (init_no_zero_division (0, 0, -10) (0, 0, 1) (2875 / 1000 / 2) 20 "red" H)
    as (_ & _ & _ & _ & a' & n0' & n1' & _ & _ & _ & _ & _ & _ & Hinit).
  eexists. exact Hinit.
Defined.

(** C10, counterexample.  Over binary64 floats the axis (0, 0, 2^-600) is
    not the zero vector, yet its squared length underflows to 0.0 and
    [__init__] raises ZeroDivisionError in the first [normalize]; and for
    the axis (2^600, 0, 0) the squared length overflows, the first
    [normalize] returns the zero vector, and [__init__] raises
    ZeroDivisionError when it normalizes the cross product. *)
Lemma init_raises_on_non_zero_axis :
  (0, 0, 0x1p-600)%float <> binary64.vzero /\
  binary64.__init__ binary64.vzero (0, 0, 0x1p-600)%float 1%float 20%float "red" =
  Raise ZeroDivisionError /\
  (0x1p600, 0, 0)%float <> binary64.vzero /\
  binary64.normalize (0x1p600, 0, 0)%float = Ok binary64.vzero /\
  binary64.__init__ binary64.vzero (0x1p600, 0, 0)%float 1%float 20%float "red" =
  Raise ZeroDivisionError.
Proof.
  split.
  { intros E. apply (f_equal (fun p => snd p)) in E. cbn [fst snd] in E.
    assert (H : PrimFloat.eqb 0x1p-600%float 0%float = PrimFloat.eqb 0%float 0%float)
      by (rewrite E; reflexivity).
    vm_compute in H. discriminate. }
  split; [ vm_compute; reflexivity | ]. split.
  { intros E. apply (f_equal (fun p => fst (fst p))) in E. cbn [fst snd] in E.
    assert (H : PrimFloat.eqb 0x1p600%float 0%float = PrimFloat.eqb 0%float 0%float)
      by (rewrite E; reflexivity).
    vm_compute in H. discriminate. }
  split; vm_compute; reflexivity.
Qed.



(** ** Generator lines *)

Lemma fold_left_append {A B : Type} (f : B -> A) (xs : list B) (acc : list A) :
  fold_left (fun ys x => ys ++ [f x]) xs acc = acc ++ map f xs.
Proof.
  revert acc. induction xs as [| x xs IH]; intros acc; cbn [fold_left map].
  - now rewrite app_nil_r.
  - rewrite IH, <- app_assoc. reflexivity.
Qed.

Lemma gen_lines_map (c : cylinder.t) :
  cylinder.gen_lines c = map (cylinder.gen_line c) (seq 0 _NDIVS).
Proof. unfold cylinder.gen_lines. now rewrite fold_left_append. Qed.

Lemma gen_lines_length (c : cylinder.t) : List.length (cylinder.gen_lines c) = _NDIVS.
Proof. now rewrite gen_lines_map, length_map, length_seq. Qed.

Lemma gen_lines_nth (c : cylinder.t) (i : nat) :
  (i < _NDIVS)%nat ->
  nth_error (cylinder.gen_lines c) i = Some (cylinder.gen_line c i).
Proof.
  intros Hi. rewrite gen_lines_map, nth_error_map, nth_error_seq.
  destruct (Nat.ltb_spec i _NDIVS) as [_ | Hge]; [ reflexivity | lia ].
Qed.

Lemma gen_lines_index (c : cylinder.t) (i : nat) :
  (i < _NDIVS)%nat -> index (cylinder.gen_lines c) i = Ok (cylinder.gen_line c i).
Proof. intros Hi. unfold index. now rewrite gen_lines_nth. Qed.

(** C7.  The generator-line sampling produces exactly [_NDIVS] lines, in
    increasing index order: line i has the point
    origin + radius cos(2 pi i / N) n0 + radius sin(2 pi i / N) n1 and the
    cylinder's stored (normalized) axis as direction.  [gen_lines] is a
    function of the cylinder alone. *)
Theorem gen_lines_sampling (c : cylinder.t) :
  List.length (cylinder.gen_lines c) = _NDIVS /\
  forall i, (i < _NDIVS)%nat ->
    let theta := 2 * PI * INR i / INR _NDIVS in
    nth_error (cylinder.gen_lines c) i =
    Some (vadd (vadd (cylinder.o c)
                     (scale (cylinder.n0 c) (cylinder.r c * cos theta)))
               (scale (cylinder.n1 c) (cylinder.r c * sin theta)),
          cylinder.a c).
Proof.
  split; [ apply gen_lines_length | ].
  intros i Hi theta. rewrite (gen_lines_nth c i Hi).
  unfold cylinder.gen_line. fold theta.
  unfold vadd, scale, vx, vy, vz. cbn [fst snd].
  apply f_equal. apply f_equal2; [ | reflexivity ].
  apply f_equal2; [ apply f_equal2 | ]; ring.
Qed.

(** ** The example cylinders are what the constructor returns *)

Lemma normalize_unit_vector (v : vec) : dot v v = 1 -> normalize v = Ok v.
Proof.
  intros U. rewrite normalize_ok by (apply unit_nonzero, U).
  now rewrite (norm_unit v U), scale_one.
Qed.

Lemma init_along_z (o : vec) (r l : R) (color : string) :
  cylinder.__init__ o (0, 0, 1) r l color = Ok (along_z o r l color).
Proof.
  unfold cylinder.__init__.
  rewrite normalize_unit_vector
    by (unfold dot, vx, vy, vz; cbn [fst snd]; ring).
  cbn [bind].
  replace (gen_normal (0, 0, 1)) with ((1, 0, 0) : vec)
    by (unfold gen_normal, vx; cbn [fst snd]; now rewrite Reqb_true).
  rewrite normalize_unit_vector
    by (unfold dot, vx, vy, vz; cbn [fst snd]; ring).
  cbn [bind].
  replace (cross (0, 0, 1) (1, 0, 0)) with ((0, 1, 0) : vec)
    by (unfold cross, vx, vy, vz; cbn [fst snd];
        apply f_equal2; [ apply f_equal2 | ]; ring).
  rewrite normalize_unit_vector
    by (unfold dot, vx, vy, vz; cbn [fst snd]; ring).
  reflexivity.
Qed.

Lemma init_along_x (o : vec) (r l : R) (color : string) :
  cylinder.__init__ o (1, 0, 0) r l color = Ok (along_x o r l color).
Proof.
  unfold cylinder.__init__.
  rewrite normalize_unit_vector
    by (unfold dot, vx, vy, vz; cbn [fst snd]; ring).
  cbn [bind].
  replace (gen_normal (1, 0, 0)) with ((0, 1, 0) : vec)
    by (unfold gen_normal, vx, vy; cbn [fst snd];
        rewrite (Reqb_false 1) by lra; now rewrite Reqb_true).
  rewrite normalize_unit_vector
    by (unfold dot, vx, vy, vz; cbn [fst snd]; ring).
  cbn [bind].
  replace (cross (1, 0, 0) (0, 1, 0)) with ((0, 0, 1) : vec)
    by (unfold cross, vx, vy, vz; cbn [fst snd];
        apply f_equal2; [ apply f_equal2 | ]; ring).
  rewrite normalize_unit_vector
    by (unfold dot, vx, vy, vz; cbn [fst snd]; ring).
  reflexivity.
Qed.

(** The first cylinder of [main] has the coordinate frame as its frame. *)
Lemma main_c0_ok : main_c0 = Ok (along_z (0, 0, -10) (2875 / 1000 / 2) 20 "red").
Proof. apply init_along_z. Qed.

(** The second cylinder of [main] is constructed without an exception. *)
Lemma main_c1_ok : exists c, main_c1 = Ok c.
Proof.
  assert (H : (0, -1, 1) <> vzero) by (intros E; inversion E; lra).
  destruct (init_steps (0, 10, -10) (0, -1, 1) (2875 / 1000 / 2) 20 "blue" H)
    as (_ & _ & _ & _ & _ & _ & _ & Hinit).
  eexists. exact Hinit.
Qed.

(** ** The template loop *)

(** The solver returns, and what it returns is one of the five tuples. *)
Lemma quadratic_shape (a b c : R) :
  exists tv,
    quadratic a b c = Ok tv /\
    (tv = AllReals \/ tv = NoSolution \/ tv = NoRealRoots \/
     (exists t, tv = OneRoot t) \/ (exists t1 t2, tv = TwoRoots t1 t2)).
Proof.
  destruct (Req_dec_T a 0) as [Ha | Ha].
  - destruct (Req_dec_T b 0) as [Hb | Hb]; destruct (Req_dec_T c 0) as [Hc | Hc];
      eexists; (split; [ eauto using quadratic_inf, quadratic_inv,
                           quadratic_linear_zero, quadratic_linear | ]);
      eauto 6.
  - destruct (Rtotal_order ((b * b) - 4 * a * c) 0) as [Hd | [Hd | Hd]];
      eexists; (split; [ eauto using quadratic_none, quadratic_double,
                           quadratic_two | ]);
      eauto 8.
Qed.

Lemma intersect_line_shape (c : cylinder.t) (ln : line) :
  exists tv,
    cylinder.intersect_line c ln = Ok tv /\
    (tv = AllReals \/ tv = NoSolution \/ tv = NoRealRoots \/
     (exists t, tv = OneRoot t) \/ (exists t1 t2, tv = TwoRoots t1 t2)).
Proof. destruct ln as [u v]. unfold cylinder.intersect_line. apply quadratic_shape. Qed.

(** One turn of the loop appends the column of its generator. *)
Lemma gen_dxf_body_column (c0 c1 : cylinder.t) (i : nat) (tv : t_vals) (col : list segment) :
  (i < _NDIVS)%nat ->
  cylinder.intersect_line c0 (cylinder.gen_line c1 i) = Ok tv ->
  column_of c1 i tv col ->
  forall d,
    gen_dxf_body c0 c1 (cylinder.gen_lines c1) (2 * PI * cylinder.r c1) d i =
    Ok (d ++ col).
Proof.
  intros Hi Htv Hcol d. unfold gen_dxf_body.
  rewrite (gen_lines_index c1 i Hi). cbn [bind]. rewrite Htv. cbn [bind].
  fold (column_x c1 i).
  destruct Hcol as [ | | | t | t1 t2 ].
  - cbn -[INR]. now rewrite app_nil_r.
  - cbn -[INR]. now rewrite app_nil_r.
  - reflexivity.
  - reflexivity.
  - cbn -[INR]. unfold Rgtb.
    destruct (Rgt_dec t1 t2) as [Hgt | Hle]; unfold add;
      rewrite <- app_assoc; cbn [app].
    + rewrite Rmin_right, Rmax_left by lra. reflexivity.
    + rewrite Rmin_left, Rmax_right by lra. reflexivity.
Qed.

(** Every generator has a column, decided by its intersection. *)
Lemma gen_dxf_body_total (c0 c1 : cylinder.t) (i : nat) :
  (i < _NDIVS)%nat ->
  exists tv col,
    cylinder.intersect_line c0 (cylinder.gen_line c1 i) = Ok tv /\
    column_of c1 i tv col /\
    forall d,
      gen_dxf_body c0 c1 (cylinder.gen_lines c1) (2 * PI * cylinder.r c1) d i =
      Ok (d ++ col).
Proof.
  intros Hi.
  destruct (intersect_line_shape c0 (cylinder.gen_line c1 i))
    as (tv & Htv & [-> | [-> | [-> | [[t ->] | (t1 & t2 & ->)]]]]);
    eexists _, _; (split; [ exact Htv | ]);
    (split; [ constructor | ]);
    intros d; eapply gen_dxf_body_column; eauto; constructor.
Qed.

(** A loop whose every turn appends a column appends all the columns, in
    index order. *)
Lemma for_each_columns (Q : nat -> list segment -> Prop)
    (body : drawing -> nat -> result drawing) (idxs : list nat) :
  (forall i, In i idxs ->
     exists col, Q i col /\ forall d, body d i = Ok (d ++ col)) ->
  forall d, exists cols,
    for_each body idxs d = Ok (d ++ concat cols) /\ Forall2 Q idxs cols.
Proof.
  induction idxs as [| i idxs IH]; intros Hbody d.
  - exists []. cbn. rewrite app_nil_r. split; [ reflexivity | constructor ].
  - destruct (Hbody i (or_introl eq_refl)) as (col & HQ & Hcol).
    destruct (IH (fun j Hj => Hbody j (or_intror Hj)) (d ++ col))
      as (cols & Hrest & HF).
    exists (col :: cols). cbn [for_each concat]. rewrite Hcol. cbn [bind].
    rewrite Hrest, <- app_assoc. split; [ reflexivity | now constructor ].
Qed.

(** The drawing is the base line followed by the columns of the generators
    0, 1, ..., [_NDIVS - 1]. *)
Lemma gen_dxf_columns (c0 c1 : cylinder.t) :
  exists cols,
    gen_dxf c0 c1 = Ok (baseline c1 :: concat cols) /\
    Forall2 (fun i col =>
               exists tv,
                 cylinder.intersect_line c0 (cylinder.gen_line c1 i) = Ok tv /\
                 column_of c1 i tv col)
            (seq 0 _NDIVS) cols.
Proof.
  unfold gen_dxf.
  destruct (for_each_columns
              (fun i col =>
                 exists tv,
                   cylinder.intersect_line c0 (cylinder.gen_line c1 i) = Ok tv /\
                   column_of c1 i tv col)
              (gen_dxf_body c0 c1 (cylinder.gen_lines c1) (2 * PI * cylinder.r c1))
              (seq 0 _NDIVS)) with (d := add [] ((0, 0), (2 * PI * cylinder.r c1, 0)))
    as (cols & Hrun & HF).
  - intros i Hi. apply in_seq in Hi.
    destruct (gen_dxf_body_total c0 c1 i) as (tv & col & Htv & Hcol & Hd); [ lia | ].
    exists col. split; [ exists tv; auto | exact Hd ].
  - exists cols. split; [ exact Hrun | exact HF ].
Qed.

Lemma Forall2_concat_Forall {A B : Type} (Q : A -> list B -> Prop) (P : B -> Prop)
    (idxs : list A) (cols : list (list B)) :
  Forall2 Q idxs cols ->
  (forall i col, In i idxs -> Q i col -> Forall P col) ->
  Forall P (concat cols).
Proof.
  induction 1 as [| i col idxs cols HQ HF IH]; intros HP; cbn [concat].
  - constructor.
  - apply Forall_app. split.
    + apply (HP i col); [ now left | exact HQ ].
    + apply IH. intros j c Hj. apply HP. now right.
Qed.

Lemma column_of_length (c1 : cylinder.t) (i : nat) (tv : t_vals) (col : list segment) :
  column_of c1 i tv col -> (length col <= 2)%nat.
Proof. destruct 1; cbn [length]; lia. Qed.

Lemma column_of_vertical (c1 : cylinder.t) (i : nat) (tv : t_vals) (col : list segment) :
  column_of c1 i tv col -> Forall (vertical_at (column_x c1 i)) col.
Proof.
  destruct 1; repeat constructor.
Qed.

(** The drawing as the loop of [gen_dxf] builds it: one base line from
    (0, 0) to (circumference, 0), then, for i = 0 .. N-1 in order, the
    column of generator i at x_i = i * circumference / N, which holds at
    most two vertical segments; nothing else is emitted and the emission
    does not raise. *)
Lemma gen_dxf_template (c0 c1 : cylinder.t) :
  baseline c1 = ((0, 0), (2 * PI * cylinder.r c1, 0)) /\
  (forall i, column_x c1 i = INR i * (2 * PI * cylinder.r c1) / INR _NDIVS) /\
  exists cols,
    gen_dxf c0 c1 = Ok (baseline c1 :: concat cols) /\
    length cols = _NDIVS /\
    Forall2 (fun i col =>
               (length col <= 2)%nat /\
               Forall (vertical_at (column_x c1 i)) col /\
               exists tv,
                 cylinder.intersect_line c0 (cylinder.gen_line c1 i) = Ok tv /\
                 column_of c1 i tv col)
            (seq 0 _NDIVS) cols.
Proof.
  split; [ reflexivity | ]. split; [ reflexivity | ].
  destruct (gen_dxf_columns c0 c1) as (cols & Hrun & HF).
  exists cols. split; [ exact Hrun | ]. split.
  - apply Forall2_length in HF. rewrite length_seq in HF. now symmetry.
  - revert HF. apply Forall2_impl.
    intros i col (tv & Htv & Hcol).
    split; [ exact (column_of_length c1 i tv col Hcol) | ].
    split; [ exact (column_of_vertical c1 i tv col Hcol) | ].
    exists tv. split; assumption.
Qed.

(** ** Clipping *)

Lemma full_column_within (c1 : cylinder.t) (i : nat) :
  0 <= cylinder.l c1 -> within_length c1 (full_column c1 i).
Proof.
  intros Hl. unfold within_length, full_column, seg_ys. cbn [fst snd].
  constructor; [ lra | ]. constructor; [ lra | constructor ].
Qed.

Lemma Forall2_concat_In {A B : Type} (Q : A -> list B -> Prop)
    (idxs : list A) (cols : list (list B)) (i : A) :
  Forall2 Q idxs cols -> In i idxs ->
  exists col, Q i col /\ incl col (concat cols).
Proof.
  induction 1 as [| j col idxs cols HQ HF IH]; intros Hin; [ contradiction | ].
  destruct Hin as [-> | Hin].
  - exists col. split; [ exact HQ | ].
    intros s Hs. cbn [concat]. apply in_or_app. now left.
  - destruct (IH Hin) as (col' & HQ' & Hincl).
    exists col'. split; [ exact HQ' | ].
    intros s Hs. cbn [concat]. apply in_or_app. right. now apply Hincl.
Qed.

Lemma column_of_two (c1 : cylinder.t) (i : nat) (t1 t2 : R) (col : list segment) :
  column_of c1 i (TwoRoots t1 t2) col ->
  col = [((column_x c1 i, 0), (column_x c1 i, Rmin t1 t2));
         ((column_x c1 i, Rmax t1 t2), (column_x c1 i, cylinder.l c1))].
Proof. intros H. inversion H. reflexivity. Qed.

(** C3, as the code has it.  The emission does not clip.  For a generator
    classified TwoRoots (t1, t2) it draws the segment from (x_i, 0) to
    (x_i, min(t1, t2)) and the segment from (x_i, max(t1, t2)) to
    (x_i, length_B), with the roots as they are.  So, for length_B >= 0,
    every segment other than the base line has both y values within
    [0, length_B] if and only if every generator classified TwoRoots has
    both roots within [0, length_B]: a root outside gives a segment
    outside. *)
Theorem gen_dxf_within_length (c0 c1 : cylinder.t) :
  0 <= cylinder.l c1 ->
  exists segs,
    gen_dxf c0 c1 = Ok (baseline c1 :: segs) /\
    (forall i t1 t2,
       (i < _NDIVS)%nat ->
       cylinder.intersect_line c0 (cylinder.gen_line c1 i) = Ok (TwoRoots t1 t2) ->
       In ((column_x c1 i, 0), (column_x c1 i, Rmin t1 t2)) segs /\
       In ((column_x c1 i, Rmax t1 t2), (column_x c1 i, cylinder.l c1)) segs) /\
    (Forall (within_length c1) segs <->
     forall i t1 t2,
       (i < _NDIVS)%nat ->
       cylinder.intersect_line c0 (cylinder.gen_line c1 i) = Ok (TwoRoots t1 t2) ->
       0 <= Rmin t1 t2 /\ Rmax t1 t2 <= cylinder.l c1).
Proof.
  intros Hl.
  destruct (gen_dxf_columns c0 c1) as (cols & Hrun & HF).
  exists (concat cols). split; [ exact Hrun | ].
  assert (Hdrawn : forall i t1 t2,
    (i < _NDIVS)%nat ->
    cylinder.intersect_line c0 (cylinder.gen_line c1 i) = Ok (TwoRoots t1 t2) ->
    In ((column_x c1 i, 0), (column_x c1 i, Rmin t1 t2)) (concat cols) /\
    In ((column_x c1 i, Rmax t1 t2), (column_x c1 i, cylinder.l c1)) (concat cols)).
  { intros i t1 t2 Hi Htwo.
    destruct (Forall2_concat_In _ _ _ i HF) as (col & (tv & Htv & Hcol) & Hincl);
      [ apply in_seq; lia | ].
    rewrite Htwo in Htv. injection Htv as <-.
    apply column_of_two in Hcol. subst col.
    split; apply Hincl; [ left | right; left ]; reflexivity. }
  split; [ exact Hdrawn | ]. split.
  - intros Hall i t1 t2 Hi Htwo.
    destruct (Hdrawn i t1 t2 Hi Htwo) as [Hlow Hhigh].
    rewrite Forall_forall in Hall.
    pose proof (Hall _ Hlow) as Wlow. pose proof (Hall _ Hhigh) as Whigh.
    unfold within_length, seg_ys in Wlow, Whigh. cbn [fst snd] in Wlow, Whigh.
    apply Forall_inv_tail, Forall_inv in Wlow. apply Forall_inv in Whigh.
    lra.
  - intros Hroots.
    eapply Forall2_concat_Forall; [ exact HF | ].
    intros i col Hi (tv & Htv & Hcol). apply in_seq in Hi.
    destruct Hcol as [ | | | t | t1 t2 ].
    + constructor.
    + constructor.
    + constructor; [ now apply full_column_within | constructor ].
    + constructor; [ now apply full_column_within | constructor ].
    + destruct (Hroots i t1 t2) as [Hmin Hmax]; [ lia | exact Htv | ].
      pose proof (Rmin_l t1 t2) as Hlo. pose proof (Rmax_l t1 t2) as Hhi.
      repeat (constructor; unfold within_length, seg_ys; cbn [fst snd]; try lra).
Qed.

(** ** The operations on the example cylinders *)

Lemma intersect_along_z (o : vec) (r l : R) (color : string) (u v : vec) :
  cylinder.intersect_line (along_z o r l color) (u, v) =
  quadratic (vx v * vx v + vy v * vy v)
            (2 * (vx u * vx v + vy u * vy v))
            (vx u * vx u + vy u * vy u - r * r).
Proof.
  unfold cylinder.intersect_line, along_z, dot, vx, vy, vz.
  cbn [fst snd cylinder.n0 cylinder.n1 cylinder.a cylinder.r].
  f_equal; ring.
Qed.

Lemma gen_line_along_z (o : vec) (r l : R) (color : string) (i : nat) :
  let theta := 2 * PI * INR i / INR _NDIVS in
  cylinder.gen_line (along_z o r l color) i =
  ((vx o + r * cos theta, vy o + r * sin theta, vz o), (0, 0, 1)).
Proof.
  intros theta. unfold cylinder.gen_line, along_z. fold theta.
  cbn [cylinder.n0 cylinder.n1 cylinder.a cylinder.r cylinder.o].
  unfold vx, vy, vz. cbn [fst snd].
  apply f_equal2; [ | reflexivity ].
  apply f_equal2; [ apply f_equal2 | ]; ring.
Qed.

Lemma gen_line_along_x (o : vec) (r l : R) (color : string) (i : nat) :
  let theta := 2 * PI * INR i / INR _NDIVS in
  cylinder.gen_line (along_x o r l color) i =
  ((vx o, vy o + r * cos theta, vz o + r * sin theta), (1, 0, 0)).
Proof.
  intros theta. unfold cylinder.gen_line, along_x. fold theta.
  cbn [cylinder.n0 cylinder.n1 cylinder.a cylinder.r cylinder.o].
  unfold vx, vy, vz. cbn [fst snd].
  apply f_equal2; [ | reflexivity ].
  apply f_equal2; [ apply f_equal2 | ]; ring.
Qed.

Lemma theta_0 : 2 * PI * INR 0 / INR _NDIVS = 0.
Proof. cbn [INR]. unfold Rdiv. ring. Qed.

(** A cylinder along x whose axis passes the z axis at distance 10, radius
    1 against radius 1: no generator meets the other cylinder. *)
Lemma crossing_far_none (i : nat) :
  cylinder.intersect_line (along_z (0, 0, 0) 1 20 "red")
    (cylinder.gen_line (along_x (0, 10, 0) 1 20 "blue") i) = Ok NoRealRoots.
Proof.
  pose proof (gen_line_along_x (0, 10, 0) 1 20 "blue" i) as Hl.
  cbv zeta in Hl. rewrite Hl, intersect_along_z.
  unfold vx, vy, vz. cbn [fst snd].
  set (theta := 2 * PI * INR i / INR _NDIVS).
  pose proof (COS_bound theta) as [Hlo Hhi].
  apply quadratic_none; nra.
Qed.

(** Two cylinders along z, radius 1 each, axes 10 apart: every generator
    of the second is parallel to the first and off its surface. *)
Lemma parallel_apart_inv (i : nat) :
  cylinder.intersect_line (along_z (0, 0, 0) 1 20 "red")
    (cylinder.gen_line (along_z (10, 0, 0) 1 20 "blue") i) = Ok NoSolution.
Proof.
  pose proof (gen_line_along_z (10, 0, 0) 1 20 "blue" i) as Hl.
  cbv zeta in Hl. rewrite Hl, intersect_along_z.
  unfold vx, vy, vz. cbn [fst snd].
  set (theta := 2 * PI * INR i / INR _NDIVS).
  pose proof (COS_bound theta) as [Hlo Hhi].
  apply quadratic_inv; nra.
Qed.

(** A cylinder of radius 3 along x through (5, 0, 0) against a cylinder of
    radius 5 along z: generator 0 passes the point (5, 3, 0) and meets the
    other cylinder at t = -1 and t = -9. *)
Lemma crossing_generator_0 :
  cylinder.intersect_line (along_z (0, 0, 0) 5 20 "red")
    (cylinder.gen_line (along_x (5, 0, 0) 3 20 "blue") 0) =
  Ok (TwoRoots (-1) (-9)).
Proof.
  pose proof (gen_line_along_x (5, 0, 0) 3 20 "blue" 0) as Hl.
  cbv zeta in Hl. rewrite Hl, intersect_along_z.
  unfold vx, vy, vz. cbn [fst snd].
  rewrite theta_0, cos_0.
  replace (1 * 1 + 0 * 0) with 1 by ring.
  replace (2 * (5 * 1 + (0 + 3 * 1) * 0)) with 10 by ring.
  replace (5 * 5 + (0 + 3 * 1) * (0 + 3 * 1) - 5 * 5) with 9 by ring.
  rewrite quadratic_two by lra.
  replace (10 * 10 - 4 * 1 * 9) with (8 * 8) by ring.
  rewrite sqrt_square by lra.
  do 2 f_equal; [ | f_equal ]; field.
Qed.

Lemma column_x_0 (c1 : cylinder.t) : column_x c1 0 = 0.
Proof. unfold column_x. cbn [INR]. unfold Rdiv. ring. Qed.

Lemma Forall2_concat_nil {A B : Type} (Q : A -> list B -> Prop)
    (idxs : list A) (cols : list (list B)) :
  Forall2 Q idxs cols ->
  (forall i col, In i idxs -> Q i col -> col = []) ->
  concat cols = [].
Proof.
  induction 1 as [| i col idxs cols HQ HF IH]; intros Hnil; cbn [concat].
  - reflexivity.
  - rewrite (Hnil i col (or_introl eq_refl) HQ). cbn [app].
    apply IH. intros j c Hj. apply Hnil. now right.
Qed.

(** Nothing but the base line is drawn for the two parallel cylinders. *)
Lemma parallel_apart_dxf :
  gen_dxf (along_z (0, 0, 0) 1 20 "red") (along_z (10, 0, 0) 1 20 "blue") =
  Ok [baseline (along_z (10, 0, 0) 1 20 "blue")].
Proof.
  destruct (gen_dxf_columns (along_z (0, 0, 0) 1 20 "red")
                            (along_z (10, 0, 0) 1 20 "blue"))
    as (cols & Hrun & HF).
  rewrite Hrun. do 2 f_equal.
  eapply Forall2_concat_nil; [ exact HF | ].
  intros i col _ (tv & Htv & Hcol).
  rewrite parallel_apart_inv in Htv. injection Htv as <-.
  inversion Hcol. reflexivity.
Qed.

(** C3, counterexample.  A cylinder of radius 3 and length 20 along x
    through (5, 0, 0), unrolled against a cylinder of radius 5 along z:
    generator 0 has the roots -1 and -9, and the drawing holds the segment
    from (0, 0) to (0, -9), whose y value -9 is below 0. *)
Lemma gen_dxf_draws_below_zero :
  let c0 := along_z (0, 0, 0) 5 20 "red" in
  let c1 := along_x (5, 0, 0) 3 20 "blue" in
  cylinder.__init__ (0, 0, 0) (0, 0, 1) 5 20 "red" = Ok c0 /\
  cylinder.__init__ (5, 0, 0) (1, 0, 0) 3 20 "blue" = Ok c1 /\
  cylinder.intersect_line c0 (cylinder.gen_line c1 0) = Ok (TwoRoots (-1) (-9)) /\
  exists d,
    gen_dxf c0 c1 = Ok (baseline c1 :: d) /\
    In ((0, 0), (0, -9)) d /\
    ~ within_length c1 ((0, 0), (0, -9)).
Proof.
  intros c0 c1.
  split; [ apply init_along_z | ]. split; [ apply init_along_x | ].
  split; [ apply crossing_generator_0 | ].
  destruct (gen_dxf_columns c0 c1) as (cols & Hrun & HF).
  exists (concat cols). split; [ exact Hrun | ]. split.
  - unfold _NDIVS in HF. cbn [seq] in HF.
    inversion HF as [| i0 col0 idxs cols' (tv & Htv & Hcol) HF' E1 E2].
    subst. unfold c0, c1 in Htv. rewrite crossing_generator_0 in Htv.
    injection Htv as <-. inversion Hcol as [ | | | | t1 t2 Ht Hc ]. subst.
    cbn [concat]. apply in_or_app. left. left.
    rewrite column_x_0, Rmin_right by lra. reflexivity.
  - unfold within_length, seg_ys. cbn [fst snd]. intros H.
    apply Forall_inv_tail, Forall_inv in H. lra.
Qed.


(** C2, at a failing input.  Two cylinders along z, radius 1 and length 20,
    axes 10 apart: each is what [__init__] builds, every one of the 32
    generators classifies as NoSolution (tag 'inv'), and the drawing is the
    base line alone: no generator has its full-length segment, because the
    loop of [gen_dxf] has no branch for the tag 'inv'. *)
Theorem gen_dxf_drops_no_solution :
  let c0 := along_z (0, 0, 0) 1 20 "red" in
  let c1 := along_z (10, 0, 0) 1 20 "blue" in
  cylinder.__init__ (0, 0, 0) (0, 0, 1) 1 20 "red" = Ok c0 /\
  cylinder.__init__ (10, 0, 0) (0, 0, 1) 1 20 "blue" = Ok c1 /\
  (forall i, (i < _NDIVS)%nat ->
     cylinder.intersect_line c0 (cylinder.gen_line c1 i) = Ok NoSolution) /\
  gen_dxf c0 c1 = Ok [baseline c1] /\
  (forall i, ~ In (full_column c1 i) [baseline c1]).
Proof.
  intros c0 c1.
  split; [ apply init_along_z | ]. split; [ apply init_along_z | ].
  split; [ intros i _; apply parallel_apart_inv | ].
  split; [ apply parallel_apart_dxf | ].
  intros i [H | []]. unfold baseline, full_column in H.
  cbn [cylinder.l cylinder.r c1 along_z] in H.
  injection H. intros. lra.
Qed.

(** ** Parallel cylinders *)

Lemma init_ok_nonzero (o a : vec) (r l : R) (color : string) (c : cylinder.t) :
  cylinder.__init__ o a r l color = Ok c -> a <> vzero.
Proof.
  intros H E. subst a. unfold cylinder.__init__ in H.
  rewrite normalize_zero in H. discriminate.
Qed.

(** A constructed cylinder stores its radius, a unit axis that depends on
    the axis input only, and normals orthogonal to that axis. *)
Lemma init_ok_frame (o a : vec) (r l : R) (color : string) (c : cylinder.t) :
  cylinder.__init__ o a r l color = Ok c ->
  cylinder.r c = r /\
  cylinder.a c = scale a (1 / norm a) /\
  dot (cylinder.a c) (cylinder.n0 c) = 0 /\
  dot (cylinder.a c) (cylinder.n1 c) = 0.
Proof.
  intros H. pose proof (init_ok_nonzero _ _ _ _ _ _ H) as Ha.
  destruct (init_steps o a r l color Ha)
    as (Ua & U0 & U1 & O0 & Na & N0 & N1 & Hinit).
  rewrite Hinit in H. injection H as <-.
  cbn [cylinder.r cylinder.a cylinder.n0 cylinder.n1].
  repeat split; [ exact O0 | apply dot_cross_l ].
Qed.




(** ** Line and cylinder *)

(** C1, at a failing input.  The cylinder of radius 1 along z through
    (5, 0, 0), as [__init__] builds it, and the line through (1, 0, 0) with
    direction (0, 1, 0): [intersect_line] returns the single root t = 0, and
    the point of the line at t = 0 is at distance 4 from the cylinder's
    axis, not at distance radius = 1.  The coordinates of the line's point
    are used as they are, not relative to the cylinder's origin and frame. *)
Theorem intersect_line_ignores_origin :
  let c := along_z (5, 0, 0) 1 20 "red" in
  let ln := ((1, 0, 0), (0, 1, 0)) in
  cylinder.__init__ (5, 0, 0) (0, 0, 1) 1 20 "red" = Ok c /\
  cylinder.intersect_line c ln = Ok (OneRoot 0) /\
  line_x ln 0 = (1, 0, 0) /\
  axis_distance c (line_x ln 0) = 4 /\
  cylinder.r c = 1.
Proof.
  intros c ln.
  split; [ apply init_along_z | ]. split.
  { unfold c, ln. rewrite intersect_along_z. unfold vx, vy, vz. cbn [fst snd].
    rewrite quadratic_double by lra.
    do 2 f_equal. f_equal. field. }
  assert (Hx : line_x ln 0 = (1, 0, 0)).
  { unfold ln, line_x, vx, vy, vz. cbn [fst snd].
    apply f_equal2; [ apply f_equal2 | ]; ring. }
  split; [ exact Hx | ]. split; [ | reflexivity ].
  rewrite Hx. unfold axis_distance, norm.
  replace (dot _ _) with (4 * 4).
  - apply sqrt_square. lra.
  - unfold c, along_z, vsub, scale, dot, vx, vy, vz.
    cbn [fst snd cylinder.o cylinder.a]. ring.
Qed.

(** X1.  Where the cylinder's frame is the frame of the coordinates, as for the
    first cylinder of [main] (axis z, origin on the z axis), every root that
    [intersect_line] returns is a point of the line at distance radius from
    the axis. *)
Theorem intersect_line_world_frame
    (oz r l : R) (color : string) (ln : line)
    (tag : string) (roots : list R) (t : R) :
  0 <= r ->
  cylinder.intersect_line (along_z (0, 0, oz) r l color) ln = Ok (tag, roots) ->
  In t roots ->
  axis_distance (along_z (0, 0, oz) r l color) (line_x ln t) = r.
Proof.
  intros Hr Hq Hin. destruct ln as [u v].
  rewrite intersect_along_z in Hq.
  pose proof (quadratic_roots_solve _ _ _ _ _ _ Hq Hin) as E.
  unfold axis_distance, norm.
  replace (dot _ _) with (r * r).
  - apply sqrt_square, Hr.
  - unfold along_z, line_x, vsub, scale, dot, vx, vy, vz in *.
    cbn [fst snd cylinder.o cylinder.a] in *.
    destruct u as [[ux uy] uz], v as [[vx' vy'] vz'].
    cbn [fst snd] in *. nra.
Qed.

Lemma intersect_line_world_frame_witness :
  let c0 := along_z (0, 0, 0) 5 20 "red" in
  let ln := cylinder.gen_line (along_x (5, 0, 0) 3 20 "blue") 0 in
  0 <= 5 /\
  cylinder.intersect_line c0 ln = Ok (TwoRoots (-1) (-9)) /\
  In (-1) [-1; -9] /\
  axis_distance c0 (line_x ln (-1)) = 5.
Proof.
  intros c0 ln.
  assert (Hr : 0 <= 5) by lra.
  assert (Hin : In (-1) [-1; -9]) by (left; reflexivity).
  split; [ exact Hr | ]. split; [ exact crossing_generator_0 | ].
  split; [ exact Hin | ].
  exact (intersect_line_world_frame 0 5 20 "red" ln "2" [-1; -9] (-1)
           Hr crossing_generator_0 Hin).
Defined.

(** * Further properties of the code *)

(** ** The solver returns all the solutions *)

Lemma quadratic_two_inv (a b c t1 t2 : R) :
  quadratic a b c = Ok (TwoRoots t1 t2) ->
  let d := (b * b) - 4 * a * c in
  a <> 0 /\ 0 < d /\
  t1 = (- b + sqrt d) / (2 * a) /\ t2 = (- b - sqrt d) / (2 * a).
Proof.
  intros Hq d.
  pose proof (quadratic_cases a b c) as Hcases. cbv zeta in Hcases.
  fold d in Hcases.
  destruct Hcases as
    [(Ha & Hb & Hc & E) | [(Ha & Hb & Hc & E) | [(Ha & Hb & Hc & E) |
    [(Ha & Hb & Hc & E) | [(Ha & Hd & E) | [(Ha & Hd & E) | (Ha & Hd & E)]]]]]];
    rewrite E in Hq; try discriminate.
  injection Hq as <- <-. repeat split; [ assumption | lra ].
Qed.

Lemma quadratic_1_10_9 : quadratic 1 10 9 = Ok (TwoRoots (-1) (-9)).
Proof.
  rewrite quadratic_two by lra.
  replace (10 * 10 - 4 * 1 * 9) with (8 * 8) by ring.
  rewrite sqrt_square by lra.
  do 2 f_equal; [ | f_equal ]; field.
Qed.

(** A number solves the equation exactly when the solver says so. *)
Lemma quadratic_complete (a b c : R) (tag : string) (roots : list R) (x : R) :
  quadratic a b c = Ok (tag, roots) ->
  (a * (x * x) + b * x + c = 0 <-> tag = "inf"%string \/ In x roots).
Proof.
  intros Hq.
  pose proof (quadratic_cases a b c) as Hcases. cbv zeta in Hcases.
  set (d := b * b - 4 * a * c) in *.
  destruct Hcases as
    [(Ha & Hb & Hc & E) | [(Ha & Hb & Hc & E) | [(Ha & Hb & Hc & E) |
    [(Ha & Hb & Hc & E) | [(Ha & Hd & E) | [(Ha & Hd & E) | (Ha & Hd & E)]]]]]];
    rewrite E in Hq; injection Hq as <- <-; cbn [In].
  - subst a b c. split; [ now left | intros _; ring ].
  - subst a b. split.
    + intros H. exfalso. lra.
    + intros [H | []]. discriminate.
  - subst a c. split.
    + intros H. right. left.
      assert (Hx : b * x = 0) by lra.
      apply Rmult_integral in Hx. destruct Hx; [ contradiction | now symmetry ].
    + intros [H | [<- | []]]; [ discriminate | ring ].
  - subst a. split.
    + intros H. right. left. apply Rmult_eq_reg_l with b; [ | assumption ].
      field_simplify; [ lra | assumption ].
    + intros [H | [<- | []]]; [ discriminate | field; assumption ].
  - assert (Hsq : forall y, 4 * a * (a * (y * y) + b * y + c) =
                            (2 * a * y + b) * (2 * a * y + b) - d)
      by (intros y; unfold d; ring).
    split.
    + intros H. right. left.
      pose proof (Hsq x) as Hx. rewrite H, Hd in Hx.
      assert (Hz : 2 * a * x + b = 0) by nra.
      apply Rmult_eq_reg_l with (2 * a); [ | lra ].
      field_simplify; [ lra | assumption ].
    + intros [H | [<- | []]]; [ discriminate | ].
      apply (quadratic_roots_solve a b c "1" [- b / (2 * a)]); [ exact E | now left ].
  - split.
    + intros H. exfalso.
      assert (Hsq : 4 * a * (a * (x * x) + b * x + c) =
                    (2 * a * x + b) * (2 * a * x + b) - d) by (unfold d; ring).
      rewrite H in Hsq.
      pose proof (Rle_0_sqr (2 * a * x + b)) as Hpos. unfold Rsqr in Hpos.
      lra.
    + intros [H | []]. discriminate.
  - assert (Hs : sqrt d * sqrt d = d) by (apply sqrt_sqrt; lra).
    set (s := sqrt d) in *.
    split.
    + intros H. right.
      assert (Hsq : (2 * a * x + b - s) * (2 * a * x + b + s) = 0).
      { replace ((2 * a * x + b - s) * (2 * a * x + b + s))
          with (4 * a * (a * (x * x) + b * x + c) - (s * s - d))
          by (unfold d; ring).
        rewrite H, Hs. ring. }
      apply Rmult_integral in Hsq. destruct Hsq as [Hp | Hm].
      * left. apply Rmult_eq_reg_l with (2 * a); [ | lra ].
        field_simplify; [ lra | assumption ].
      * right. left. apply Rmult_eq_reg_l with (2 * a); [ | lra ].
        field_simplify; [ lra | assumption ].
    + intros [H | Hin]; [ discriminate | ].
      apply (quadratic_roots_solve a b c "2"
               [(- b + s) / (2 * a); (- b - s) / (2 * a)]); [ exact E | exact Hin ].
Qed.

(** X2.  The roots that [quadratic] returns are all the real solutions: x
    solves a x^2 + b x + c = 0 exactly when the tag is 'inf' or x is one of
    the returned roots. *)
Theorem quadratic_solutions (a b c : R) (tag : string) (roots : list R) (x : R) :
  quadratic a b c = Ok (tag, roots) ->
  (a * (x * x) + b * x + c = 0 <-> tag = "inf"%string \/ In x roots).
Proof. apply quadratic_complete. Qed.

Lemma quadratic_solutions_witness :
  quadratic 1 10 9 = Ok ("2"%string, [-1; -9]) /\
  (1 * (-9 * -9) + 10 * -9 + 9 = 0 <-> "2"%string = "inf"%string \/ In (-9) [-1; -9]).
Proof.
  split; [ exact quadratic_1_10_9 | ].
  exact (quadratic_solutions 1 10 9 "2" [-1; -9] (-9) quadratic_1_10_9).
Defined.

(** X3.  When [quadratic] returns two roots they are distinct, their sum is
    -b/a and their product c/a, and the first is the greater one exactly
    when a is positive: the order of the pair follows the sign of a. *)
Theorem quadratic_two_roots (a b c t1 t2 : R) :
  quadratic a b c = Ok (TwoRoots t1 t2) ->
  a <> 0 /\ t1 <> t2 /\
  t1 + t2 = - b / a /\ t1 * t2 = c / a /\
  (0 < a -> t2 < t1) /\ (a < 0 -> t1 < t2).
Proof.
  intros Hq. destruct (quadratic_two_inv a b c t1 t2 Hq) as (Ha & Hd & E1 & E2).
  set (d := b * b - 4 * a * c) in *.
  assert (Hs : sqrt d * sqrt d = d) by (apply sqrt_sqrt; lra).
  assert (Hp : 0 < sqrt d) by (apply sqrt_lt_R0; assumption).
  set (s := sqrt d) in *.
  assert (Hdiff : t1 - t2 = s / a) by (subst t1 t2; field; assumption).
  split; [ assumption | ]. split.
  { intros E. rewrite E in Hdiff.
    assert (Hz : s = 0).
    { apply Rmult_eq_reg_l with (/ a); [ | now apply Rinv_neq_0_compat ].
      unfold Rdiv in Hdiff. lra. }
    lra. }
  split; [ subst t1 t2; field; assumption | ]. split.
  { subst t1 t2.
    replace ((- b + s) / (2 * a) * ((- b - s) / (2 * a)))
      with ((b * b - s * s) / (4 * a * a)) by (field; assumption).
    rewrite Hs. unfold d. field. assumption. }
  split; intros Hsign.
  - assert (0 < s / a) by (apply Rdiv_lt_0_compat; assumption). lra.
  - assert (H : 0 < s / - a) by (apply Rdiv_lt_0_compat; lra).
    replace (s / - a) with (- (s / a)) in H by (field; assumption). lra.
Qed.

Lemma quadratic_two_roots_witness :
  quadratic 1 10 9 = Ok (TwoRoots (-1) (-9)) /\ -1 + -9 = - 10 / 1 /\ -1 * -9 = 9 / 1.
Proof.
  split; [ exact quadratic_1_10_9 | ].
  destruct (quadratic_two_roots 1 10 9 (-1) (-9) quadratic_1_10_9)
    as (_ & _ & Hsum & Hprod & _).
  split; [ exact Hsum | exact Hprod ].
Defined.

(** ** Generator lines of a constructed cylinder *)














(** ** Order of the two roots of an intersection *)

(** The leading coefficient of the quadratic of [intersect_line] is a sum
    of two squares, so the first root is the greater one. *)
Lemma intersect_line_ordered (c : cylinder.t) (ln : line) (t1 t2 : R) :
  cylinder.intersect_line c ln = Ok (TwoRoots t1 t2) -> t2 < t1.
Proof.
  destruct ln as [u v]. unfold cylinder.intersect_line. intros H.
  apply quadratic_two_inv in H. cbv zeta in H.
  destruct H as (Ha & Hd & E1 & E2).
  set (a := vx (dot v (cylinder.n0 c), dot v (cylinder.n1 c), dot v (cylinder.a c)) *
            vx (dot v (cylinder.n0 c), dot v (cylinder.n1 c), dot v (cylinder.a c)) +
            vy (dot v (cylinder.n0 c), dot v (cylinder.n1 c), dot v (cylinder.a c)) *
            vy (dot v (cylinder.n0 c), dot v (cylinder.n1 c), dot v (cylinder.a c)))
    in *.
  assert (Hpos : 0 < a) by (unfold a in *; nra).
  match type of Hd with 0 < ?d => set (s := sqrt d) in *;
    assert (Hs : 0 < s) by (apply sqrt_lt_R0; exact Hd) end.
  assert (Hdiff : t1 - t2 = s / a) by (subst t1 t2; field; lra).
  assert (0 < s / a) by (apply Rdiv_lt_0_compat; assumption).
  lra.
Qed.

(** X8.  When a generator meets the other cylinder in two points, the pair
    that [intersect_line] returns has its greater root first; so [gen_dxf]
    always takes the branch that swaps them, and the column of the
    generator is the segment from y = 0 to the second root followed by the
    segment from the first root to y = length_B. *)
Theorem intersect_line_roots_ordered
    (c0 c1 : cylinder.t) (i : nat) (t1 t2 : R) :
  (i < _NDIVS)%nat ->
  cylinder.intersect_line c0 (cylinder.gen_line c1 i) = Ok (TwoRoots t1 t2) ->
  t2 < t1 /\
  forall d,
    gen_dxf_body c0 c1 (cylinder.gen_lines c1) (2 * PI * cylinder.r c1) d i =
    Ok (d ++ [((column_x c1 i, 0), (column_x c1 i, t2));
              ((column_x c1 i, t1), (column_x c1 i, cylinder.l c1))]).
Proof.
  intros Hi H. pose proof (intersect_line_ordered _ _ _ _ H) as Hlt.
  split; [ exact Hlt | ]. intros d.
  rewrite (gen_dxf_body_column c0 c1 i _ _ Hi H (column_two c1 i t1 t2)).
  rewrite Rmin_right, Rmax_left by lra. reflexivity.
Qed.

Lemma intersect_line_roots_ordered_witness :
  (0 < _NDIVS)%nat /\
  cylinder.intersect_line (along_z (0, 0, 0) 5 20 "red")
    (cylinder.gen_line (along_x (5, 0, 0) 3 20 "blue") 0) = Ok (TwoRoots (-1) (-9)) /\
  -9 < -1.
Proof.
  assert (Hi : (0 < _NDIVS)%nat) by (unfold _NDIVS; lia).
  split; [ exact Hi | ]. split; [ exact crossing_generator_0 | ].
  exact (proj1 (intersect_line_roots_ordered _ _ 0%nat (-1) (-9) Hi
                  crossing_generator_0)).
Defined.

(** ** A cylinder whose frame is the coordinate frame *)

Lemma axis_distance_along_z (oz r l : R) (color : string) (u v : vec) (t : R) :
  axis_distance (along_z (0, 0, oz) r l color) (line_x (u, v) t) =
  sqrt ((vx v * vx v + vy v * vy v) * (t * t) +
        2 * (vx u * vx v + vy u * vy v) * t +
        (vx u * vx u + vy u * vy u - r * r) + r * r).
Proof.
  unfold axis_distance, norm. f_equal.
  destruct u as [[ux uy] uz], v as [[vx' vy'] vz'].
  unfold along_z, line_x, vsub, scale, dot, vx, vy, vz.
  cbn [fst snd cylinder.o cylinder.a]. ring.
Qed.

(** X9.  For a cylinder whose frame is the coordinate frame (axis z, origin
    on the z axis) and radius r >= 0, [intersect_line] finds exactly the
    points of the line on the surface: the point at parameter t is at
    distance r from the axis if and only if the tag is 'inf' or t is one of
    the returned roots. *)
Theorem intersect_line_world_frame_iff
    (oz r l : R) (color : string) (ln : line)
    (tag : string) (roots : list R) (t : R) :
  0 <= r ->
  cylinder.intersect_line (along_z (0, 0, oz) r l color) ln = Ok (tag, roots) ->
  (axis_distance (along_z (0, 0, oz) r l color) (line_x ln t) = r <->
   tag = "inf"%string \/ In t roots).
Proof.
  intros Hr Hq. destruct ln as [u v].
  rewrite intersect_along_z in Hq.
  rewrite <- (quadratic_complete _ _ _ _ _ t Hq), axis_distance_along_z.
  set (q := (vx v * vx v + vy v * vy v) * (t * t) +
            2 * (vx u * vx v + vy u * vy v) * t +
            (vx u * vx u + vy u * vy u - r * r)).
  assert (Hnn : 0 <= q + r * r).
  { unfold q. destruct u as [[ux uy] uz], v as [[vx' vy'] vz'].
    unfold vx, vy. cbn [fst snd].
    replace (_ + r * r)
      with (Rsqr (ux + vx' * t) + Rsqr (uy + vy' * t)) by (unfold Rsqr; ring).
    apply Rplus_le_le_0_compat; apply Rle_0_sqr. }
  split.
  - intros H. pose proof (sqrt_sqrt _ Hnn) as Hs. rewrite H in Hs. lra.
  - intros H. rewrite H, Rplus_0_l. now apply sqrt_square.
Qed.

Lemma intersect_line_world_frame_iff_witness :
  let c0 := along_z (0, 0, 0) 5 20 "red" in
  let ln := cylinder.gen_line (along_x (5, 0, 0) 3 20 "blue") 0 in
  0 <= 5 /\
  cylinder.intersect_line c0 ln = Ok (TwoRoots (-1) (-9)) /\
  (axis_distance c0 (line_x ln (-9)) = 5 <->
   "2"%string = "inf"%string \/ In (-9) [-1; -9]).
Proof.
  intros c0 ln.
  assert (Hr : 0 <= 5) by lra.
  split; [ exact Hr | ]. split; [ exact crossing_generator_0 | ].
  exact (intersect_line_world_frame_iff 0 5 20 "red" ln "2" [-1; -9] (-9)
           Hr crossing_generator_0).
Defined.

(** ** Templates of cylinders that miss *)

Lemma Forall2_concat_map {A B : Type} (Q : A -> list B -> Prop) (f : A -> B)
    (idxs : list A) (cols : list (list B)) :
  Forall2 Q idxs cols ->
  (forall i col, In i idxs -> Q i col -> col = [f i]) ->
  concat cols = map f idxs.
Proof.
  induction 1 as [| i col idxs cols HQ HF IH]; intros Hone; cbn [concat map].
  - reflexivity.
  - rewrite (Hone i col (or_introl eq_refl) HQ). cbn [app]. f_equal.
    apply IH. intros j c Hj. apply Hone. now right.
Qed.

Lemma Forall2_concat_length {A B : Type} (Q : A -> list B -> Prop) (n : nat)
    (idxs : list A) (cols : list (list B)) :
  Forall2 Q idxs cols ->
  (forall i col, Q i col -> (length col <= n)%nat) ->
  (length (concat cols) <= n * length idxs)%nat.
Proof.
  intros HF Hn. induction HF as [| i col idxs cols HQ HF IH]; cbn [concat length].
  - lia.
  - rewrite length_app. specialize (Hn i col HQ). lia.
Qed.

(** X11.  When A misses every generator of B or only touches it (each
    intersection is NoRealRoots or OneRoot), the template is the base line
    followed by one full-length segment per generator, in index order. *)
Theorem gen_dxf_all_open (c0 c1 : cylinder.t) :
  (forall i, (i < _NDIVS)%nat ->
     cylinder.intersect_line c0 (cylinder.gen_line c1 i) = Ok NoRealRoots \/
     exists t, cylinder.intersect_line c0 (cylinder.gen_line c1 i) = Ok (OneRoot t)) ->
  gen_dxf c0 c1 = Ok (baseline c1 :: map (full_column c1) (seq 0 _NDIVS)).
Proof.
  intros Hopen.
  destruct (gen_dxf_columns c0 c1) as (cols & Hrun & HF).
  rewrite Hrun. do 2 f_equal.
  eapply Forall2_concat_map; [ exact HF | ].
  intros i col Hi (tv & Htv & Hcol). apply in_seq in Hi.
  destruct (Hopen i) as [E | [t E]]; [ lia | | ];
    rewrite E in Htv; injection Htv as <-; inversion Hcol; reflexivity.
Qed.

Lemma gen_dxf_all_open_witness :
  let c0 := along_z (0, 0, 0) 1 20 "red" in
  let c1 := along_x (0, 10, 0) 1 20 "blue" in
  (forall i, cylinder.intersect_line c0 (cylinder.gen_line c1 i) = Ok NoRealRoots) /\
  gen_dxf c0 c1 = Ok (baseline c1 :: map (full_column c1) (seq 0 _NDIVS)).
Proof.
  intros c0 c1. split; [ exact crossing_far_none | ].
  apply (gen_dxf_all_open c0 c1).
  intros i _. left. apply crossing_far_none.
Defined.

Lemma column_x_range (c1 : cylinder.t) (i : nat) :
  0 < cylinder.r c1 -> (i < _NDIVS)%nat ->
  0 <= column_x c1 i < 2 * PI * cylinder.r c1.
Proof.
  intros Hr Hi. unfold column_x.
  pose proof PI_RGT_0 as Hpi.
  assert (Hb : 0 < 2 * PI * cylinder.r c1) by nra.
  pose proof (pos_INR i) as H0.
  apply lt_INR in Hi.
  assert (Hn : 0 < INR _NDIVS) by lra.
  set (b := 2 * PI * cylinder.r c1) in *.
  split.
  - apply Rmult_le_reg_r with (INR _NDIVS); [ assumption | ].
    unfold Rdiv. rewrite Rmult_assoc, Rinv_l by lra. nra.
  - apply Rmult_lt_reg_r with (INR _NDIVS); [ assumption | ].
    unfold Rdiv. rewrite Rmult_assoc, Rinv_l by lra. nra.
Qed.

(** X12.  For a cylinder B of positive radius the template stays over its
    base line: besides the base line the drawing holds at most 2 N
    segments, each vertical, at an x value in [0, circumference). *)
Theorem gen_dxf_over_baseline (c0 c1 : cylinder.t) :
  0 < cylinder.r c1 ->
  exists segs,
    gen_dxf c0 c1 = Ok (baseline c1 :: segs) /\
    (length segs <= 2 * _NDIVS)%nat /\
    Forall (fun s => fst (fst s) = fst (snd s) /\
                     0 <= fst (fst s) < 2 * PI * cylinder.r c1) segs.
Proof.
  intros Hr.
  destruct (gen_dxf_columns c0 c1) as (cols & Hrun & HF).
  exists (concat cols). split; [ exact Hrun | ]. split.
  - assert (Hlen : (length (concat cols) <= 2 * length (seq 0 _NDIVS))%nat).
    { eapply Forall2_concat_length; [ exact HF | ].
      intros i col (tv & _ & Hcol). exact (column_of_length _ _ _ _ Hcol). }
    rewrite length_seq in Hlen. exact Hlen.
  - eapply Forall2_concat_Forall; [ exact HF | ].
    intros i col Hi (tv & _ & Hcol). apply in_seq in Hi.
    pose proof (column_x_range c1 i Hr) as Hx.
    eapply Forall_impl; [ | exact (column_of_vertical _ _ _ _ Hcol) ].
    intros [[x1 y1] [x2 y2]] [E1 E2]. cbn [fst snd] in *. subst x1 x2.
    split; [ reflexivity | apply Hx; lia ].
Qed.

Lemma gen_dxf_over_baseline_witness :
  let c0 := along_z (0, 0, 0) 5 20 "red" in
  let c1 := along_x (5, 0, 0) 3 20 "blue" in
  0 < cylinder.r c1 /\
  exists segs,
    gen_dxf c0 c1 = Ok (baseline c1 :: segs) /\ (length segs <= 2 * _NDIVS)%nat.
Proof.
  intros c0 c1.
  assert (Hr : 0 < cylinder.r c1) by (cbn; lra).
  split; [ exact Hr | ].
  destruct (gen_dxf_over_baseline c0 c1 Hr) as (segs & Hrun & Hlen & _).
  exists segs. split; assumption.
Defined.

(** ** A branch at 45 degrees, the configuration of [main] *)

Lemma inv_sqrt2_sqr : / sqrt 2 * / sqrt 2 = / 2.
Proof. rewrite <- Rinv_mult, sqrt_sqrt by lra. reflexivity. Qed.

Lemma sqrt2_inv_sqrt2 : sqrt 2 * / sqrt 2 = 1.
Proof. apply Rinv_r, sqrt2_neq_0. Qed.

Lemma twice_inv_sqrt2 : 2 * / sqrt 2 = sqrt 2.
Proof.
  transitivity (sqrt 2 * (2 * (/ sqrt 2 * / sqrt 2))).
  - transitivity (2 * / sqrt 2 * (sqrt 2 * / sqrt 2)).
    + rewrite sqrt2_inv_sqrt2. ring.
    + ring.
  - rewrite inv_sqrt2_sqr. field.
Qed.

Lemma sqrt2_bounds : 1 <= sqrt 2 <= 3 / 2.
Proof.
  split.
  - rewrite <- sqrt_1 at 1. apply sqrt_le_1; lra.
  - replace (3 / 2) with (sqrt (3 / 2 * (3 / 2))) by (apply sqrt_square; lra).
    apply sqrt_le_1; lra.
Qed.

Lemma init_along_diagonal (o : vec) (r l : R) (color : string) :
  cylinder.__init__ o (0, -1, 1) r l color = Ok (along_diagonal o r l color).
Proof.
  pose proof inv_sqrt2_sqr as Hk2. pose proof sqrt2_neq_0 as Hs.
  unfold cylinder.__init__.
  assert (Hv : (0, -1, 1) <> vzero) by (intros E; inversion E; lra).
  rewrite (normalize_ok _ Hv). cbn [bind].
  replace (scale (0, -1, 1) (1 / norm (0, -1, 1)))
    with ((0, - / sqrt 2, / sqrt 2) : vec).
  2:{ unfold norm.
      replace (dot (0, -1, 1) (0, -1, 1)) with 2
        by (unfold dot, vx, vy, vz; cbn [fst snd]; ring).
      unfold scale, vx, vy, vz. cbn [fst snd].
      apply f_equal2; [ apply f_equal2 | ]; field; assumption. }
  replace (gen_normal (0, - / sqrt 2, / sqrt 2)) with ((1, 0, 0) : vec)
    by (unfold gen_normal, vx; cbn [fst snd]; now rewrite Reqb_true).
  rewrite normalize_unit_vector
    by (unfold dot, vx, vy, vz; cbn [fst snd]; ring).
  cbn [bind].
  replace (cross (0, - / sqrt 2, / sqrt 2) (1, 0, 0))
    with ((0, / sqrt 2, / sqrt 2) : vec)
    by (unfold cross, vx, vy, vz; cbn [fst snd];
        apply f_equal2; [ apply f_equal2 | ]; ring).
  rewrite normalize_unit_vector
    by (unfold dot, vx, vy, vz; cbn [fst snd]; lra).
  reflexivity.
Qed.

(** The quadratic of generator [i] of the branch against the tube along z. *)
Lemma diagonal_quadratic
    (o0 : vec) (ox oy oz r0 r1 l0 l1 : R) (color0 color1 : string) (i : nat) :
  let theta := 2 * PI * INR i / INR _NDIVS in
  let px := ox + r1 * cos theta in
  let m := sqrt 2 * oy + r1 * sin theta in
  cylinder.intersect_line (along_z o0 r0 l0 color0)
    (cylinder.gen_line (along_diagonal (ox, oy, oz) r1 l1 color1) i) =
  quadratic (/ 2) (- m) (px * px + m * m * / 2 - r0 * r0).
Proof.
  intros theta px m.
  pose proof inv_sqrt2_sqr as Hk2. pose proof sqrt2_inv_sqrt2 as Hk.
  pose proof twice_inv_sqrt2 as H2k.
  unfold cylinder.gen_line, along_diagonal. fold theta.
  cbn [cylinder.o cylinder.a cylinder.r cylinder.n0 cylinder.n1].
  rewrite intersect_along_z. unfold vx, vy, vz. cbn [fst snd].
  set (k := / sqrt 2) in *.
  assert (Hpy : oy + r1 * cos theta * 0 + r1 * sin theta * k = m * k).
  { unfold m. transitivity (sqrt 2 * k * oy + r1 * sin theta * k);
      [ rewrite Hk; ring | ring ]. }
  assert (Hpx : ox + r1 * cos theta * 1 + r1 * sin theta * 0 = px)
    by (unfold px; ring).
  rewrite Hpy, Hpx.
  f_equal.
  - transitivity (k * k); [ ring | exact Hk2 ].
  - transitivity (- (m * (2 * (k * k)))); [ ring | rewrite Hk2; field ].
  - transitivity (px * px + m * m * (k * k) - r0 * r0); [ ring | now rewrite Hk2 ].
Qed.

Lemma diagonal_discriminant (m px r0 : R) :
  - m * - m - 4 * / 2 * (px * px + m * m * / 2 - r0 * r0) =
  2 * (r0 * r0 - px * px).
Proof. field. Qed.

(** The three cases of the intersection of generator [i]. *)
Lemma diagonal_cases
    (o0 : vec) (ox oy oz r0 r1 l0 l1 : R) (color0 color1 : string) (i : nat) :
  let c0 := along_z o0 r0 l0 color0 in
  let c1 := along_diagonal (ox, oy, oz) r1 l1 color1 in
  let theta := 2 * PI * INR i / INR _NDIVS in
  let px := ox + r1 * cos theta in
  let D := 2 * (r0 * r0 - px * px) in
  let m := sqrt 2 * oy + r1 * sin theta in
  (D < 0 ->
   cylinder.intersect_line c0 (cylinder.gen_line c1 i) = Ok NoRealRoots) /\
  (D = 0 ->
   cylinder.intersect_line c0 (cylinder.gen_line c1 i) = Ok (OneRoot m)) /\
  (0 < D ->
   cylinder.intersect_line c0 (cylinder.gen_line c1 i) =
   Ok (TwoRoots (m + sqrt D) (m - sqrt D))).
Proof.
  intros c0 c1 theta px D m.
  pose proof (diagonal_quadratic o0 ox oy oz r0 r1 l0 l1 color0 color1 i) as Hq.
  cbv zeta in Hq. fold theta px m in Hq. fold c0 c1 in Hq. rewrite Hq.
  pose proof (diagonal_discriminant m px r0) as Hd. fold D in Hd.
  split; [ | split ]; intros HD.
  - apply quadratic_none; lra.
  - rewrite quadratic_double by lra.
    replace (- - m / (2 * / 2)) with m by field. reflexivity.
  - rewrite quadratic_two by lra. rewrite Hd.
    replace ((- - m + sqrt D) / (2 * / 2)) with (m + sqrt D) by field.
    replace ((- - m - sqrt D) / (2 * / 2)) with (m - sqrt D) by field.
    reflexivity.
Qed.


(** The square root of the discriminant is at most sqrt 2 times r0. *)
Lemma diagonal_sqrt_bound (r0 px : R) :
  0 <= r0 -> 0 <= 2 * (r0 * r0 - px * px) ->
  sqrt (2 * (r0 * r0 - px * px)) <= sqrt 2 * r0.
Proof.
  intros Hr HD.
  replace (sqrt 2 * r0) with (sqrt (2 * (r0 * r0))).
  - apply sqrt_le_1; nra.
  - rewrite sqrt_mult by nra. now rewrite sqrt_square.
Qed.

(** The columns may be checked one generator at a time. *)
Lemma gen_dxf_within_by_generator (c0 c1 : cylinder.t) :
  (forall i tv col,
     (i < _NDIVS)%nat ->
     cylinder.intersect_line c0 (cylinder.gen_line c1 i) = Ok tv ->
     column_of c1 i tv col ->
     Forall (within_length c1) col) ->
  exists segs,
    gen_dxf c0 c1 = Ok (baseline c1 :: segs) /\ Forall (within_length c1) segs.
Proof.
  intros Hcolumn.
  destruct (gen_dxf_columns c0 c1) as (cols & Hrun & HF).
  exists (concat cols). split; [ exact Hrun | ].
  eapply Forall2_concat_Forall; [ exact HF | ].
  intros i col Hi (tv & Htv & Hcol). apply in_seq in Hi.
  apply (Hcolumn i tv col); [ lia | assumption | assumption ].
Qed.

(** X14.  For the branch at 45 degrees (axis (0, -1, 1), origin
    (ox, oy, oz), radius r1 >= 0, length l1) against a tube along z of
    radius r0 >= 0: when sqrt 2 oy - r1 - sqrt 2 r0 >= 0 and
    sqrt 2 oy + r1 + sqrt 2 r0 <= l1, every segment of the template other
    than the base line has both y values within [0, l1].  The cylinders of
    [main] satisfy the two bounds. *)
Theorem diagonal_branch_within_length
    (o0 : vec) (ox oy oz r0 r1 l0 l1 : R) (color0 color1 : string) :
  let c0 := along_z o0 r0 l0 color0 in
  let c1 := along_diagonal (ox, oy, oz) r1 l1 color1 in
  0 <= r0 -> 0 <= r1 ->
  0 <= sqrt 2 * oy - r1 - sqrt 2 * r0 ->
  sqrt 2 * oy + r1 + sqrt 2 * r0 <= l1 ->
  exists segs,
    gen_dxf c0 c1 = Ok (baseline c1 :: segs) /\ Forall (within_length c1) segs.
Proof.
  intros c0 c1 Hr0 Hr1 Hlo Hhi.
  pose proof sqrt2_bounds as [Hs1 Hs2].
  assert (Hl : 0 <= cylinder.l c1) by (cbn [c1 along_diagonal cylinder.l]; nra).
  apply gen_dxf_within_by_generator.
  intros i tv col Hi Htv Hcol.
  destruct Hcol as [ | | | t | t1 t2 ].
  - constructor.
  - constructor.
  - constructor; [ now apply full_column_within | constructor ].
  - constructor; [ now apply full_column_within | constructor ].
  - pose proof (diagonal_cases o0 ox oy oz r0 r1 l0 l1 color0 color1 i) as Hc.
    cbv zeta in Hc. fold c0 c1 in Hc.
    set (theta := 2 * PI * INR i / INR _NDIVS) in *.
    set (D := 2 * (r0 * r0 - (ox + r1 * cos theta) * (ox + r1 * cos theta))) in *.
    set (m := sqrt 2 * oy + r1 * sin theta) in *.
    destruct Hc as (Hneg & Hzero & Hpos).
    destruct (Rtotal_order D 0) as [HD | [HD | HD]].
    + rewrite (Hneg HD) in Htv. discriminate.
    + rewrite (Hzero HD) in Htv. discriminate.
    + rewrite (Hpos HD) in Htv. injection Htv as <- <-.
      assert (Hs : 0 < sqrt D) by (apply sqrt_lt_R0; exact HD).
      assert (Hsb : sqrt D <= sqrt 2 * r0)
        by (apply diagonal_sqrt_bound; [ assumption | unfold D in HD; lra ]).
      pose proof (SIN_bound theta) as [Hsl Hsh].
      assert (Hm : sqrt 2 * oy - r1 <= m <= sqrt 2 * oy + r1)
        by (unfold m; split; nra).
      rewrite Rmin_right, Rmax_left by lra.
      unfold within_length, seg_ys. change (cylinder.l c1) with l1 in *.
      apply Forall_cons; [ | apply Forall_cons; [ | apply Forall_nil ] ];
        cbn [fst snd];
        (apply Forall_cons; [ lra | apply Forall_cons; [ lra | apply Forall_nil ] ]).
Qed.

Lemma diagonal_branch_within_length_witness :
  let r := 2875 / 1000 / 2 in
  let c0 := along_z (0, 0, -10) r 20 "red" in
  let c1 := along_diagonal (0, 10, -10) r 20 "blue" in
  main_c0 = Ok c0 /\ main_c1 = Ok c1 /\
  0 <= r /\
  0 <= sqrt 2 * 10 - r - sqrt 2 * r /\
  sqrt 2 * 10 + r + sqrt 2 * r <= 20 /\
  exists segs,
    gen_dxf c0 c1 = Ok (baseline c1 :: segs) /\ Forall (within_length c1) segs.
Proof.
  intros r c0 c1.
  pose proof sqrt2_bounds as [Hs1 Hs2].
  assert (Hr : 0 <= r) by (unfold r; lra).
  assert (Hlo : 0 <= sqrt 2 * 10 - r - sqrt 2 * r) by (unfold r; lra).
  assert (Hhi : sqrt 2 * 10 + r + sqrt 2 * r <= 20) by (unfold r; lra).
  split; [ apply init_along_z | ]. split; [ apply init_along_diagonal | ].
  split; [ exact Hr | ]. split; [ exact Hlo | ]. split; [ exact Hhi | ].
  exact (diagonal_branch_within_length (0, 0, -10) 0 10 (-10) r r 20 20
           "red" "blue" Hr Hr Hlo Hhi).
Defined.

(** X15.  In the same configuration with the two axes in one plane
    (ox = 0) and r0 > 0, the generator a quarter turn around B (index 8 of
    32) always crosses the tube, at t = sqrt 2 oy + r1 + sqrt 2 r0 and at
    t = sqrt 2 oy + r1 - sqrt 2 r0: the template of such a pair is never
    the base line alone. *)
Theorem diagonal_branch_quarter_turn
    (o0 : vec) (oy oz r0 r1 l0 l1 : R) (color0 color1 : string) :
  0 < r0 ->
  cylinder.intersect_line (along_z o0 r0 l0 color0)
    (cylinder.gen_line (along_diagonal (0, oy, oz) r1 l1 color1) 8) =
  Ok (TwoRoots (sqrt 2 * oy + r1 + sqrt 2 * r0)
               (sqrt 2 * oy + r1 - sqrt 2 * r0)).
Proof.
  intros Hr0.
  pose proof (diagonal_cases o0 0 oy oz r0 r1 l0 l1 color0 color1 8) as Hc.
  cbv zeta in Hc. destruct Hc as (_ & _ & Hpos).
  assert (Hth : 2 * PI * INR 8 / INR _NDIVS = PI / 2).
  { unfold _NDIVS. cbn [INR]. field. }
  rewrite Hth, cos_PI2, sin_PI2 in Hpos.
  replace (2 * (r0 * r0 - (0 + r1 * 0) * (0 + r1 * 0)))
    with (2 * (r0 * r0)) in Hpos by ring.
  rewrite Hpos by nra.
  rewrite sqrt_mult, sqrt_square by nra.
  replace (r1 * 1) with r1 by ring. reflexivity.
Qed.

Lemma diagonal_branch_quarter_turn_witness :
  let r := 2875 / 1000 / 2 in
  0 < r /\
  cylinder.intersect_line (along_z (0, 0, -10) r 20 "red")
    (cylinder.gen_line (along_diagonal (0, 10, -10) r 20 "blue") 8) =
  Ok (TwoRoots (sqrt 2 * 10 + r + sqrt 2 * r) (sqrt 2 * 10 + r - sqrt 2 * r)).
Proof.
  intros r.
  assert (Hr : 0 < r) by (unfold r; lra).
  split; [ exact Hr | ].
  exact (diagonal_branch_quarter_turn (0, 0, -10) 10 (-10) r r 20 20 "red" "blue" Hr).
Defined.

(** ** What the template does not depend on *)

(** X16.  The template does not depend on where cylinder A is or how long
    it is: two cylinders A constructed with the same axis input and radius
    give the same drawing for the same B, whatever their origins, lengths
    and colours.  ([intersect_line] reads the frame and the radius only.) *)
Theorem gen_dxf_ignores_origin
    (o o' a : vec) (r l l' : R) (color color' : string)
    (c0 c0' c1 : cylinder.t) :
  cylinder.__init__ o a r l color = Ok c0 ->
  cylinder.__init__ o' a r l' color' = Ok c0' ->
  gen_dxf c0 c1 = gen_dxf c0' c1.
Proof.
  intros H H'. pose proof (init_ok_nonzero _ _ _ _ _ _ H) as Ha.
  destruct (init_steps o a r l color Ha) as (_ & _ & _ & _ & _ & _ & _ & E).
  destruct (init_steps o' a r l' color' Ha) as (_ & _ & _ & _ & _ & _ & _ & E').
  rewrite E in H. rewrite E' in H'.
  injection H as <-. injection H' as <-. reflexivity.
Qed.

Lemma gen_dxf_ignores_origin_witness :
  cylinder.__init__ (0, 0, 0) (0, 0, 1) 5 20 "red" =
  Ok (along_z (0, 0, 0) 5 20 "red") /\
  cylinder.__init__ (7, 7, 7) (0, 0, 1) 5 1 "green" =
  Ok (along_z (7, 7, 7) 5 1 "green") /\
  gen_dxf (along_z (0, 0, 0) 5 20 "red") (along_x (5, 0, 0) 3 20 "blue") =
  gen_dxf (along_z (7, 7, 7) 5 1 "green") (along_x (5, 0, 0) 3 20 "blue").
Proof.
  split; [ apply init_along_z | ]. split; [ apply init_along_z | ].
  exact (gen_dxf_ignores_origin _ _ _ _ _ _ _ _ _ _ (along_x (5, 0, 0) 3 20 "blue")
           (init_along_z (0, 0, 0) 5 20 "red")
           (init_along_z (7, 7, 7) 5 1 "green")).
Defined.

(** ** Re-basing a line *)

(** Moving the unknown by s moves every root by -s and keeps the tag. *)
Lemma quadratic_shift (a b c s : R) (tag : string) (roots : list R) :
  quadratic a b c = Ok (tag, roots) ->
  quadratic a (b + 2 * a * s) (c + b * s + a * (s * s)) =
  Ok (tag, map (fun t => t - s) roots).
Proof.
  intros Hq.
  pose proof (quadratic_cases a b c) as Hcases. cbv zeta in Hcases.
  assert (Hd : (b + 2 * a * s) * (b + 2 * a * s) -
               4 * a * (c + b * s + a * (s * s)) = b * b - 4 * a * c) by ring.
  destruct Hcases as
    [(Ha & Hb & Hc & E) | [(Ha & Hb & Hc & E) | [(Ha & Hb & Hc & E) |
    [(Ha & Hb & Hc & E) | [(Ha & Hd' & E) | [(Ha & Hd' & E) | (Ha & Hd' & E)]]]]]];
    rewrite E in Hq; injection Hq as <- <-; cbn [map].
  - apply quadratic_inf; subst; ring.
  - apply quadratic_inv; subst; [ reflexivity | ring | ].
    intros H. apply Hc. lra.
  - subst a c. destruct (Req_dec_T s 0) as [Hs | Hs].
    + subst s. rewrite quadratic_linear_zero by (try ring; lra).
      unfold OneRoot. do 3 f_equal. ring.
    + rewrite quadratic_linear.
      * unfold OneRoot. do 3 f_equal. field. assumption.
      * reflexivity.
      * lra.
      * intros H. assert (Hbs : b * s = 0) by lra.
        apply Rmult_integral in Hbs. tauto.
  - subst a.
    destruct (Req_dec_T (c + b * s + 0 * (s * s)) 0) as [Hz | Hz].
    + rewrite quadratic_linear_zero by (try assumption; try reflexivity; lra).
      unfold OneRoot. do 3 f_equal.
      apply Rmult_eq_reg_l with b; [ | assumption ].
      field_simplify; [ lra | assumption ].
    + rewrite quadratic_linear by (try assumption; try reflexivity; lra).
      unfold OneRoot. do 3 f_equal. field. assumption.
  - rewrite quadratic_double by (try assumption; lra).
    unfold OneRoot. do 3 f_equal. field. assumption.
  - rewrite quadratic_none by (try assumption; lra). reflexivity.
  - rewrite quadratic_two by (try assumption; lra). rewrite Hd.
    unfold TwoRoots. do 2 f_equal.
    f_equal; [ field; assumption | ]. f_equal. field. assumption.
Qed.

(** X17.  The solver commutes with a change of unknown: the quadratic in
    t + s, with coefficients a, b + 2 a s and c + b s + a s^2, gets the same
    tag and every root moved by -s. *)
Theorem quadratic_translation (a b c s : R) (tag : string) (roots : list R) :
  quadratic a b c = Ok (tag, roots) ->
  quadratic a (b + 2 * a * s) (c + b * s + a * (s * s)) =
  Ok (tag, map (fun t => t - s) roots).
Proof. apply quadratic_shift. Qed.

Lemma quadratic_translation_witness :
  quadratic 1 10 9 = Ok ("2"%string, [-1; -9]) /\
  quadratic 1 (10 + 2 * 1 * 3) (9 + 10 * 3 + 1 * (3 * 3)) =
  Ok ("2"%string, map (fun t => t - 3) [-1; -9]).
Proof.
  split; [ exact quadratic_1_10_9 | ].
  exact (quadratic_translation 1 10 9 3 "2" [-1; -9] quadratic_1_10_9).
Defined.

(** X18.  For a cylinder whose frame is the coordinate frame, starting
    the line from its own point at parameter s, in the same direction,
    keeps the tag and moves every root by -s: [line_x] and
    [intersect_line] agree on what the parameter means. *)
Theorem intersect_line_rebase
    (o : vec) (r l : R) (color : string) (u v : vec) (s : R)
    (tag : string) (roots : list R) :
  cylinder.intersect_line (along_z o r l color) (u, v) = Ok (tag, roots) ->
  cylinder.intersect_line (along_z o r l color) (line_x (u, v) s, v) =
  Ok (tag, map (fun t => t - s) roots).
Proof.
  rewrite !intersect_along_z. intros Hq.
  rewrite <- (quadratic_shift _ _ _ s _ _ Hq).
  destruct u as [[ux uy] uz], v as [[vx' vy'] vz'].
  unfold line_x, vx, vy, vz. cbn [fst snd].
  f_equal; ring.
Qed.

Lemma intersect_line_rebase_witness :
  let c0 := along_z (0, 0, 0) 5 20 "red" in
  cylinder.intersect_line c0 ((5, 3, 0), (1, 0, 0)) = Ok (TwoRoots (-1) (-9)) /\
  cylinder.intersect_line c0 (line_x ((5, 3, 0), (1, 0, 0)) (-1), (1, 0, 0)) =
  Ok ("2"%string, map (fun t => t - -1) [-1; -9]).
Proof.
  intros c0.
  assert (H : cylinder.intersect_line c0 ((5, 3, 0), (1, 0, 0)) =
              Ok (TwoRoots (-1) (-9))).
  { unfold c0. rewrite intersect_along_z. unfold vx, vy, vz. cbn [fst snd].
    replace (1 * 1 + 0 * 0) with 1 by ring.
    replace (2 * (5 * 1 + 3 * 0)) with 10 by ring.
    replace (5 * 5 + 3 * 3 - 5 * 5) with 9 by ring.
    apply quadratic_1_10_9. }
  split; [ exact H | ].
  exact (intersect_line_rebase (0, 0, 0) 5 20 "red" (5, 3, 0) (1, 0, 0) (-1)
           "2" [-1; -9] H).
Defined.

(** ** Cross product and degrees *)

(** X19.  [cross u v] is orthogonal to u and to v, changes sign when the
    arguments are swapped, and its squared length is
    |u|^2 |v|^2 - (u.v)^2; so the cross product of two orthogonal unit
    vectors is a unit vector, as the construction of n1 needs. *)
Theorem cross_orthogonal (u v : vec) :
  dot u (cross u v) = 0 /\
  dot v (cross u v) = 0 /\
  cross v u = scale (cross u v) (-1) /\
  dot (cross u v) (cross u v) = dot u u * dot v v - dot u v * dot u v /\
  (dot u u = 1 -> dot v v = 1 -> dot u v = 0 -> norm (cross u v) = 1).
Proof.
  split; [ apply dot_cross_l | ]. split; [ apply dot_cross_r | ]. split.
  - destruct u as [[x y] z], v as [[x' y'] z'].
    unfold cross, scale, vx, vy, vz. cbn [fst snd].
    apply f_equal2; [ apply f_equal2 | ]; ring.
  - split; [ apply dot_cross_cross | ].
    intros Hu Hv Huv. apply norm_unit.
    rewrite dot_cross_cross, Hu, Hv, Huv. ring.
Qed.

(** [r2d] turns pi into 180 degrees, is additive and strictly
    increasing, and is undone by multiplying by pi / 180. *)
Theorem r2d_degrees :
  r2d PI = 180 /\
  (forall x y, r2d (x + y) = r2d x + r2d y) /\
  (forall x y, x < y -> r2d x < r2d y) /\
  (forall x, r2d x * PI / 180 = x).
Proof.
  pose proof PI_RGT_0 as Hpi. unfold r2d.
  split; [ field; lra | ]. split; [ intros; field; lra | ]. split.
  - intros x y Hxy. apply Rmult_lt_compat_r; [ | lra ].
    apply Rinv_0_lt_compat. lra.
  - intros x. field. lra.
Qed.

(** ** The loop of [gen_dxf] against the cut policy of the specification *)

(** For every tag but 'inv' the column that the loop adds is the column of
    the cut policy. *)
Lemma column_of_spec_cut_policy
    (c1 : cylinder.t) (i : nat) (tv : t_vals) (col : list segment) :
  column_of c1 i tv col -> tv <> NoSolution -> col = spec_cut_policy c1 i tv.
Proof.
  intros Hcol Hinv. destruct Hcol; try reflexivity. contradiction.
Qed.

(** C8, at a failing input.  The drawing is the base line followed by the
    columns of the generators 0 .. N-1 in order, and for every generator
    whose tag is not 'inv' the column is the one of the cut policy.  A
    generator with the tag 'inv' gets no segment, where the cut policy
    gives it one full-length segment: for the two cylinders along z with
    radius 1 and length 20, axes 10 apart, generator 0 classifies as
    NoSolution, the cut policy asks for the full column at x_0, and the
    drawing is the base line alone. *)
Theorem gen_dxf_misses_cut_policy :
  let c0 := along_z (0, 0, 0) 1 20 "red" in
  let c1 := along_z (10, 0, 0) 1 20 "blue" in
  (forall a b : cylinder.t,
     exists cols,
       gen_dxf a b = Ok (baseline b :: concat cols) /\
       Forall2 (fun i col =>
                  exists tv,
                    cylinder.intersect_line a (cylinder.gen_line b i) = Ok tv /\
                    (tv <> NoSolution -> col = spec_cut_policy b i tv))
               (seq 0 _NDIVS) cols) /\
  cylinder.__init__ (0, 0, 0) (0, 0, 1) 1 20 "red" = Ok c0 /\
  cylinder.__init__ (10, 0, 0) (0, 0, 1) 1 20 "blue" = Ok c1 /\
  cylinder.intersect_line c0 (cylinder.gen_line c1 0) = Ok NoSolution /\
  spec_cut_policy c1 0 NoSolution = [full_column c1 0] /\
  gen_dxf c0 c1 = Ok [baseline c1] /\
  ~ In (full_column c1 0) [baseline c1].
Proof.
  intros c0 c1. split.
  { intros a b. destruct (gen_dxf_columns a b) as (cols & Hrun & HF).
    exists cols. split; [ exact Hrun | ].
    revert HF. apply Forall2_impl. intros i col (tv & Htv & Hcol).
    exists tv. split; [ exact Htv | ].
    now apply column_of_spec_cut_policy. }
  split; [ apply init_along_z | ]. split; [ apply init_along_z | ].
  split; [ apply parallel_apart_inv | ]. split; [ reflexivity | ].
  split; [ apply parallel_apart_dxf | ].
  intros [H | []]. unfold baseline, full_column in H.
  cbn [cylinder.l cylinder.r c1 along_z] in H.
  injection H. intros. lra.
Qed.

(** ** The template of [main] *)

(** The roots of a generator of the branch at 45 degrees stay within the
    length of the branch under the two bounds. *)
Lemma diagonal_two_roots_within
    (o0 : vec) (ox oy oz r0 r1 l0 l1 : R) (color0 color1 : string)
    (i : nat) (t1 t2 : R) :
  0 <= r0 -> 0 <= r1 ->
  0 <= sqrt 2 * oy - r1 - sqrt 2 * r0 ->
  sqrt 2 * oy + r1 + sqrt 2 * r0 <= l1 ->
  cylinder.intersect_line (along_z o0 r0 l0 color0)
    (cylinder.gen_line (along_diagonal (ox, oy, oz) r1 l1 color1) i) =
  Ok (TwoRoots t1 t2) ->
  0 <= Rmin t1 t2 /\ Rmax t1 t2 <= l1.
Proof.
  intros Hr0 Hr1 Hlo Hhi Htv.
  pose proof sqrt2_bounds as [Hs1 Hs2].
  pose proof (diagonal_cases o0 ox oy oz r0 r1 l0 l1 color0 color1 i) as Hc.
  cbv zeta in Hc.
  set (theta := 2 * PI * INR i / INR _NDIVS) in *.
  set (D := 2 * (r0 * r0 - (ox + r1 * cos theta) * (ox + r1 * cos theta))) in *.
  set (m := sqrt 2 * oy + r1 * sin theta) in *.
  destruct Hc as (Hneg & Hzero & Hpos).
  destruct (Rtotal_order D 0) as [HD | [HD | HD]].
  - rewrite (Hneg HD) in Htv. discriminate.
  - rewrite (Hzero HD) in Htv. discriminate.
  - rewrite (Hpos HD) in Htv. injection Htv as <- <-.
    assert (Hs : 0 < sqrt D) by (apply sqrt_lt_R0; exact HD).
    assert (Hsb : sqrt D <= sqrt 2 * r0)
      by (apply diagonal_sqrt_bound; [ assumption | unfold D in HD; lra ]).
    pose proof (SIN_bound theta) as [Hsl Hsh].
    assert (Hm : sqrt 2 * oy - r1 <= m <= sqrt 2 * oy + r1)
      by (unfold m; split; nra).
    rewrite Rmin_right, Rmax_left by lra. lra.
Qed.

(** Generator 8 of the second cylinder of [main] crosses the first. *)
Lemma main_generator_8 :
  let r := 2875 / 1000 / 2 in
  cylinder.intersect_line (along_z (0, 0, -10) r 20 "red")
    (cylinder.gen_line (along_diagonal (0, 10, -10) r 20 "blue") 8) =
  Ok (TwoRoots (sqrt 2 * 10 + r + sqrt 2 * r) (sqrt 2 * 10 + r - sqrt 2 * r)).
Proof.
  intros r.
  pose proof (diagonal_cases (0, 0, -10) 0 10 (-10) r r 20 20 "red" "blue" 8) as Hc.
  cbv zeta in Hc. destruct Hc as (_ & _ & Hpos).
  assert (Hth : 2 * PI * INR 8 / INR _NDIVS = PI / 2).
  { unfold _NDIVS. cbn [INR]. field. }
  rewrite Hth, cos_PI2, sin_PI2 in Hpos.
  replace (2 * (r * r - (0 + r * 0) * (0 + r * 0)))
    with (2 * (r * r)) in Hpos by ring.
  assert (Hr : 0 < r) by (unfold r; lra).
  rewrite Hpos by nra.
  rewrite sqrt_mult, sqrt_square by nra.
  replace (r * 1) with r by ring. reflexivity.
Qed.

Lemma gen_dxf_within_length_witness :
  let r := 2875 / 1000 / 2 in
  let c0 := along_z (0, 0, -10) r 20 "red" in
  let c1 := along_diagonal (0, 10, -10) r 20 "blue" in
  let t1 := sqrt 2 * 10 + r + sqrt 2 * r in
  let t2 := sqrt 2 * 10 + r - sqrt 2 * r in
  main_c0 = Ok c0 /\ main_c1 = Ok c1 /\
  0 <= cylinder.l c1 /\
  cylinder.intersect_line c0 (cylinder.gen_line c1 8) = Ok (TwoRoots t1 t2) /\
  exists segs,
    gen_dxf c0 c1 = Ok (baseline c1 :: segs) /\
    In ((column_x c1 8, 0), (column_x c1 8, Rmin t1 t2)) segs /\
    In ((column_x c1 8, Rmax t1 t2), (column_x c1 8, cylinder.l c1)) segs /\
    Forall (within_length c1) segs.
Proof.
  intros r c0 c1 t1 t2.
  pose proof sqrt2_bounds as [Hs1 Hs2].
  assert (Hl : 0 <= cylinder.l c1) by (cbn; lra).
  assert (Hr : 0 <= r) by (unfold r; lra).
  assert (Hlo : 0 <= sqrt 2 * 10 - r - sqrt 2 * r) by (unfold r; lra).
  assert (Hhi : sqrt 2 * 10 + r + sqrt 2 * r <= 20) by (unfold r; lra).
  assert (H8 : (8 < _NDIVS)%nat) by (unfold _NDIVS; lia).
  split; [ apply init_along_z | ]. split; [ apply init_along_diagonal | ].
  split; [ exact Hl | ]. split; [ exact main_generator_8 | ].
  destruct (gen_dxf_within_length c0 c1 Hl) as (segs & Hrun & Hdrawn & Hiff).
  exists segs. split; [ exact Hrun | ].
  destruct (Hdrawn 8%nat t1 t2 H8 main_generator_8) as [Hlow Hhigh].
  split; [ exact Hlow | ]. split; [ exact Hhigh | ].
  apply Hiff. intros i a b Hi Htwo.
  exact (diagonal_two_roots_within (0, 0, -10) 0 10 (-10) r r 20 20 "red" "blue"
           i a b Hr Hr Hlo Hhi Htwo).
Defined.
